(** * croc: a fluent builder for single HTTP requests

    A shallow embedding of [croc.go] (package [croc]): the [CrocClient]
    struct becomes a record, every method a function from builder to
    builder, and the two executing methods [End] and [Do] thread the
    builder together with the state of the network.

    The package leans on Go's standard library.  The small, deterministic
    pieces it depends on (header-key canonicalisation, the header
    multimap, the way a request attaches credentials and cookies) are
    written out; the rest (URL parsing, base64, cookie sanitising, the
    network round trip) is an interface, [GoLib] and [Network], over
    which every statement is generic.

    Conventions.  A Go pointer that may be [nil] is an [option]; the
    request and the response the builder stores are modelled by what
    they hold when they are stored (a request as [makeRequest] assembled
    it, a response as the client returned it).  The cookies handed to
    [AddCookies] are taken to be non-nil.  [int] and [int64] results are
    in [Z]; no arithmetic is done on them. *)

From Stdlib Require Import ZArith NArith Ascii String.
From stdpp Require Import gmap strings list.

Local Open Scope string_scope.

(** ** Errors *)

(** Values of Go's [error] interface that the package handles: the ones
    it creates itself with [errors.New], and the ones handed back by
    net/url, net/http and io, which it stores and returns untouched. *)
Inductive error : Type :=
| errors_New (text : string)
| foreign_error (origin text : string).

(** The error kinds the package raises before any network I/O. *)
Definition no_method : error := errors_New "no method specified".
Definition no_url : error := errors_New "no url specified".

(** ** Header keys (net/textproto) *)

Module textproto.

Definition isLower (c : ascii) : bool :=
  let n := N_of_ascii c in ((97 <=? n) && (n <=? 122))%N.

Definition isUpper (c : ascii) : bool :=
  let n := N_of_ascii c in ((65 <=? n) && (n <=? 90))%N.

Definition isDigit (c : ascii) : bool :=
  let n := N_of_ascii c in ((48 <=? n) && (n <=? 57))%N.

Definition toLower : N := 32.

(** The token characters of RFC 7230. *)
Definition validHeaderFieldByte (c : ascii) : bool :=
  isLower c || isUpper c || isDigit c
  || existsb (Ascii.eqb c) (list_ascii_of_string "!#$%&'*+-.^_`|~").

Fixpoint allValid (s : string) : bool :=
  match s with
  | EmptyString => true
  | String c rest => validHeaderFieldByte c && allValid rest
  end.

(** One step of the canonicalising loop: upper-case a letter that
    opens the key or follows a dash, lower-case every other letter. *)
Definition canonByte (upper : bool) (c : ascii) : ascii :=
  if upper && isLower c then ascii_of_N (N_of_ascii c - toLower)
  else if negb upper && isUpper c then ascii_of_N (N_of_ascii c + toLower)
  else c.

Definition isDash (c : ascii) : bool := Ascii.eqb c "-"%char.

Fixpoint canonLoop (upper : bool) (s : string) : string :=
  match s with
  | EmptyString => EmptyString
  | String c rest =>
      let c' := canonByte upper c in
      String c' (canonLoop (isDash c') rest)
  end.

(** [CanonicalMIMEHeaderKey]: a key holding a byte that is not a token
    character is returned as it is; any other key is canonicalised. *)
Definition CanonicalMIMEHeaderKey (s : string) : string :=
  if allValid s then canonLoop true s else s.

End textproto.

Abbreviation canon := textproto.CanonicalMIMEHeaderKey.

(** A key with its upper-case letters lowered: two keys are the same up
    to case when this gives the same string for both. *)
Definition lowerByte (c : ascii) : ascii :=
  if textproto.isUpper c then ascii_of_N (N_of_ascii c + textproto.toLower)
  else c.

Fixpoint lowerKey (s : string) : string :=
  match s with
  | EmptyString => EmptyString
  | String c rest => String (lowerByte c) (lowerKey rest)
  end.

(** When two keys name the same header: keys made of token characters
    when they are the same up to case, and any other two keys only when
    they are the same string. *)
Definition same_header (k key : string) : Prop :=
  if textproto.allValid k && textproto.allValid key
  then lowerKey k = lowerKey key
  else k = key.

(** ** The header multimap (net/http [Header]) *)

Abbreviation Header := (gmap string (list string)).

Definition Header_Set (key value : string) (h : Header) : Header :=
  <[canon key := [value]]> h.

Definition Header_Add (key value : string) (h : Header) : Header :=
  <[canon key := (default [] (h !! canon key) ++ [value])%list]> h.

Definition Header_Values (key : string) (h : Header) : list string :=
  default [] (h !! canon key).

Definition Header_Get (key : string) (h : Header) : string :=
  match h !! canon key with
  | Some (v :: _) => v
  | _ => ""
  end.

(** A header built through [Header_Set] and [Header_Add] only: every key
    is canonical and no key maps to an empty list. *)
Definition header_wf (h : Header) : Prop :=
  ∀ k vs, h !! k = Some vs → canon k = k ∧ vs ≠ [].


(** ** The standard-library collaborators *)

(** What the package takes from Go's standard library without looking
    inside: URL parsing (net/url), base64 (encoding/base64), the
    sanitising of cookie names and values (net/http), and the URL as
    [http.NewRequest] leaves it, with an empty port stripped from its
    host ([u.Host = removeEmptyPort(u.Host)]). *)
Class GoLib := {
  URL : Type;
  url_Parse : string → URL + error;
  url_removeEmptyPort : URL → URL;
  base64_EncodeToString : string → string;
  sanitizeCookieName : string → string;
  sanitizeCookieValue : string → string;
}.

(** [http.Cookie], with the fields a request uses. *)
Record http_Cookie := { Name : string; Value : string }.

(** A response body: the bytes [io.ReadAll] obtains from it and the
    error, if any, that ends the read. *)
Record ReadCloser := { stream_data : list Byte.byte; stream_err : option error }.

Definition io_ReadAll (r : ReadCloser) : list Byte.byte * option error :=
  (stream_data r, stream_err r).

(** [http.Response], with the fields the package reads. *)
Record http_Response := {
  StatusCode : Z;
  resp_Header : Header;
  ContentLength : Z;
  resp_Body : ReadCloser;
}.

Inductive PublicSuffixList := publicsuffix_List.

(** [cookiejar.New]: the jar is identified by its options; what it
    stores lives in the state of the network. *)
Record CookieJar := cookiejar_New { jar_PublicSuffixList : option PublicSuffixList }.

Definition emptyCookieJar : CookieJar := cookiejar_New (Some publicsuffix_List).

Record BasicAuth := { Username : string; Password : string }.

Global Instance BasicAuth_eq_dec : EqDecision BasicAuth.
Proof. solve_decision. Defined.

Definition GET := "GET".
Definition POST := "POST".
Definition PUT := "PUT".
Definition DELETE := "DELETE".
Definition HEAD := "HEAD".
Definition PATCH := "PATCH".
Definition OPTIONS := "OPTIONS".

Section croc.
Context `{!GoLib}.

(** [http.Request], with the fields the package sets. *)
Record http_Request := {
  req_Method : string;
  req_URL : URL;
  req_Header : Header;
  req_Body : list Byte.byte;
}.

(** The source's function type [Proxy], from a request to a proxy URL
    or an error; the name [Proxy] is kept for the method. *)
Definition ProxyFunc : Type := http_Request → option URL * option error.

(** [http.ProxyURL]: the resolver that answers the fixed URL for
    every request. *)
Definition http_ProxyURL (fixedURL : URL) : ProxyFunc :=
  λ _, (Some fixedURL, None).

Record http_Transport := {
  DisableKeepAlives : bool;
  transport_Proxy : option ProxyFunc;
}.

Record http_Client := {
  Jar : option CookieJar;
  client_Transport : option http_Transport;
}.

(** *** Requests (net/http) *)

(** [validMethod]: a non-empty string of token characters. *)
Definition validMethod (method : string) : bool :=
  negb (String.eqb method "") && textproto.allValid method.

(** [http.NewRequest]: an empty method means GET; the method must be
    valid and the url must parse; the request gets the parsed url with
    an empty port stripped from its host, and has no header yet. *)
Definition http_NewRequest (method url : string) (body : list Byte.byte)
    : http_Request + error :=
  let method := if String.eqb method "" then "GET" else method in
  if validMethod method then
    match url_Parse url with
    | inl u => inl {| req_Method := method; req_URL := url_removeEmptyPort u;
                      req_Header := ∅; req_Body := body |}
    | inr e => inr e
    end
  else inr (foreign_error "net/http" ("invalid method " ++ method)).

Definition set_req_Header (h : Header) (req : http_Request) : http_Request :=
  {| req_Method := req_Method req; req_URL := req_URL req;
     req_Header := h; req_Body := req_Body req |}.

(** [Request.SetBasicAuth] *)
Definition basicAuth_value (username password : string) : string :=
  "Basic " ++ base64_EncodeToString (username ++ ":" ++ password).

Definition req_SetBasicAuth (username password : string) (req : http_Request)
    : http_Request :=
  set_req_Header
    (Header_Set "Authorization" (basicAuth_value username password) (req_Header req))
    req.

(** [Request.AddCookie]: the pair is joined to the first value of
    the Cookie header, which then becomes the only one. *)
Definition req_AddCookie (c : http_Cookie) (req : http_Request) : http_Request :=
  let s := sanitizeCookieName (Name c) ++ "=" ++ sanitizeCookieValue (Value c) in
  let old := Header_Get "Cookie" (req_Header req) in
  if String.eqb old "" then set_req_Header (Header_Set "Cookie" s (req_Header req)) req
  else set_req_Header (Header_Set "Cookie" (old ++ "; " ++ s) (req_Header req)) req.

(** *** The network *)

(** What an [http.Client] does with a request: the answer depends on
    the client (its jar and its transport, proxy included), on the
    request and on the state of the network, which it changes. *)
Class Network := {
  Net : Type;
  roundTrip : http_Client → http_Request → Net → (http_Response + error) * Net;
}.
Context `{!Network}.

(** The network together with the log of the requests handed to it. *)
Record World := {
  net : Net;
  sent : list (http_Client * http_Request);
}.

(** [http.Client.Do] *)
Definition client_Do (c : http_Client) (req : http_Request) (w : World)
    : (http_Response + error) * World :=
  let '(res, n) := roundTrip c req (net w) in
  (res, {| net := n; sent := (sent w ++ [(c, req)])%list |}).

(** *** The builder *)

Record CrocClient := {
  url : string;
  method : string;
  headers : Header;
  client : http_Client;
  transport : http_Transport;
  cookies : list http_Cookie;
  basicAuth : BasicAuth;
  rawBody : list Byte.byte;
  proxy : option ProxyFunc;
  err : option error;
  (* response handling *)
  lastRequest : option http_Request;
  lastResponse : option http_Response;
  respStatusCode : Z;
  respHeaders : Header;
  rawRespBody : list Byte.byte;
  contentLength : Z;
}.

Definition New : CrocClient := {|
  url := "";
  method := "";
  headers := ∅;
  client := {| Jar := Some emptyCookieJar; client_Transport := None |};
  transport := {| DisableKeepAlives := true; transport_Proxy := None |};
  cookies := [];
  basicAuth := {| Username := ""; Password := "" |};
  rawBody := [];
  proxy := None;
  err := None;
  lastRequest := None;
  lastResponse := None;
  respStatusCode := 0;
  respHeaders := ∅;
  rawRespBody := [];
  contentLength := 0;
|}.

(** Field assignments [cc.f = v]. *)
Definition set_url (v : string) (cc : CrocClient) : CrocClient :=
  {| url := v; method := method cc; headers := headers cc;
     client := client cc; transport := transport cc; cookies := cookies cc;
     basicAuth := basicAuth cc; rawBody := rawBody cc; proxy := proxy cc;
     err := err cc; lastRequest := lastRequest cc;
     lastResponse := lastResponse cc; respStatusCode := respStatusCode cc;
     respHeaders := respHeaders cc; rawRespBody := rawRespBody cc;
     contentLength := contentLength cc |}.

Definition set_method (v : string) (cc : CrocClient) : CrocClient :=
  {| url := url cc; method := v; headers := headers cc;
     client := client cc; transport := transport cc; cookies := cookies cc;
     basicAuth := basicAuth cc; rawBody := rawBody cc; proxy := proxy cc;
     err := err cc; lastRequest := lastRequest cc;
     lastResponse := lastResponse cc; respStatusCode := respStatusCode cc;
     respHeaders := respHeaders cc; rawRespBody := rawRespBody cc;
     contentLength := contentLength cc |}.

Definition set_headers (v : Header) (cc : CrocClient) : CrocClient :=
  {| url := url cc; method := method cc; headers := v; client := client cc;
     transport := transport cc; cookies := cookies cc;
     basicAuth := basicAuth cc; rawBody := rawBody cc; proxy := proxy cc;
     err := err cc; lastRequest := lastRequest cc;
     lastResponse := lastResponse cc; respStatusCode := respStatusCode cc;
     respHeaders := respHeaders cc; rawRespBody := rawRespBody cc;
     contentLength := contentLength cc |}.

Definition set_client (v : http_Client) (cc : CrocClient) : CrocClient :=
  {| url := url cc; method := method cc; headers := headers cc;
     client := v; transport := transport cc; cookies := cookies cc;
     basicAuth := basicAuth cc; rawBody := rawBody cc; proxy := proxy cc;
     err := err cc; lastRequest := lastRequest cc;
     lastResponse := lastResponse cc; respStatusCode := respStatusCode cc;
     respHeaders := respHeaders cc; rawRespBody := rawRespBody cc;
     contentLength := contentLength cc |}.

Definition set_transport (v : http_Transport) (cc : CrocClient) : CrocClient :=
  {| url := url cc; method := method cc; headers := headers cc;
     client := client cc; transport := v; cookies := cookies cc;
     basicAuth := basicAuth cc; rawBody := rawBody cc; proxy := proxy cc;
     err := err cc; lastRequest := lastRequest cc;
     lastResponse := lastResponse cc; respStatusCode := respStatusCode cc;
     respHeaders := respHeaders cc; rawRespBody := rawRespBody cc;
     contentLength := contentLength cc |}.

Definition set_cookies (v : list http_Cookie) (cc : CrocClient) : CrocClient :=
  {| url := url cc; method := method cc; headers := headers cc;
     client := client cc; transport := transport cc; cookies := v;
     basicAuth := basicAuth cc; rawBody := rawBody cc; proxy := proxy cc;
     err := err cc; lastRequest := lastRequest cc;
     lastResponse := lastResponse cc; respStatusCode := respStatusCode cc;
     respHeaders := respHeaders cc; rawRespBody := rawRespBody cc;
     contentLength := contentLength cc |}.

Definition set_basicAuth (v : BasicAuth) (cc : CrocClient) : CrocClient :=
  {| url := url cc; method := method cc; headers := headers cc;
     client := client cc; transport := transport cc; cookies := cookies cc;
     basicAuth := v; rawBody := rawBody cc; proxy := proxy cc;
     err := err cc; lastRequest := lastRequest cc;
     lastResponse := lastResponse cc; respStatusCode := respStatusCode cc;
     respHeaders := respHeaders cc; rawRespBody := rawRespBody cc;
     contentLength := contentLength cc |}.

Definition set_rawBody (v : list Byte.byte) (cc : CrocClient) : CrocClient :=
  {| url := url cc; method := method cc; headers := headers cc;
     client := client cc; transport := transport cc; cookies := cookies cc;
     basicAuth := basicAuth cc; rawBody := v; proxy := proxy cc;
     err := err cc; lastRequest := lastRequest cc;
     lastResponse := lastResponse cc; respStatusCode := respStatusCode cc;
     respHeaders := respHeaders cc; rawRespBody := rawRespBody cc;
     contentLength := contentLength cc |}.

Definition set_proxy (v : option ProxyFunc) (cc : CrocClient) : CrocClient :=
  {| url := url cc; method := method cc; headers := headers cc;
     client := client cc; transport := transport cc; cookies := cookies cc;
     basicAuth := basicAuth cc; rawBody := rawBody cc; proxy := v;
     err := err cc; lastRequest := lastRequest cc;
     lastResponse := lastResponse cc; respStatusCode := respStatusCode cc;
     respHeaders := respHeaders cc; rawRespBody := rawRespBody cc;
     contentLength := contentLength cc |}.

Definition set_err (v : option error) (cc : CrocClient) : CrocClient :=
  {| url := url cc; method := method cc; headers := headers cc;
     client := client cc; transport := transport cc; cookies := cookies cc;
     basicAuth := basicAuth cc; rawBody := rawBody cc; proxy := proxy cc;
     err := v; lastRequest := lastRequest cc;
     lastResponse := lastResponse cc; respStatusCode := respStatusCode cc;
     respHeaders := respHeaders cc; rawRespBody := rawRespBody cc;
     contentLength := contentLength cc |}.

Definition set_lastRequest (v : option http_Request) (cc : CrocClient) : CrocClient :=
  {| url := url cc; method := method cc; headers := headers cc;
     client := client cc; transport := transport cc; cookies := cookies cc;
     basicAuth := basicAuth cc; rawBody := rawBody cc; proxy := proxy cc;
     err := err cc; lastRequest := v; lastResponse := lastResponse cc;
     respStatusCode := respStatusCode cc; respHeaders := respHeaders cc;
     rawRespBody := rawRespBody cc; contentLength := contentLength cc |}.

Definition set_lastResponse (v : option http_Response) (cc : CrocClient) : CrocClient :=
  {| url := url cc; method := method cc; headers := headers cc;
     client := client cc; transport := transport cc; cookies := cookies cc;
     basicAuth := basicAuth cc; rawBody := rawBody cc; proxy := proxy cc;
     err := err cc; lastRequest := lastRequest cc; lastResponse := v;
     respStatusCode := respStatusCode cc; respHeaders := respHeaders cc;
     rawRespBody := rawRespBody cc; contentLength := contentLength cc |}.

Definition set_respStatusCode (v : Z) (cc : CrocClient) : CrocClient :=
  {| url := url cc; method := method cc; headers := headers cc;
     client := client cc; transport := transport cc; cookies := cookies cc;
     basicAuth := basicAuth cc; rawBody := rawBody cc; proxy := proxy cc;
     err := err cc; lastRequest := lastRequest cc;
     lastResponse := lastResponse cc; respStatusCode := v;
     respHeaders := respHeaders cc; rawRespBody := rawRespBody cc;
     contentLength := contentLength cc |}.

Definition set_respHeaders (v : Header) (cc : CrocClient) : CrocClient :=
  {| url := url cc; method := method cc; headers := headers cc;
     client := client cc; transport := transport cc; cookies := cookies cc;
     basicAuth := basicAuth cc; rawBody := rawBody cc; proxy := proxy cc;
     err := err cc; lastRequest := lastRequest cc;
     lastResponse := lastResponse cc; respStatusCode := respStatusCode cc;
     respHeaders := v; rawRespBody := rawRespBody cc;
     contentLength := contentLength cc |}.

Definition set_rawRespBody (v : list Byte.byte) (cc : CrocClient) : CrocClient :=
  {| url := url cc; method := method cc; headers := headers cc;
     client := client cc; transport := transport cc; cookies := cookies cc;
     basicAuth := basicAuth cc; rawBody := rawBody cc; proxy := proxy cc;
     err := err cc; lastRequest := lastRequest cc;
     lastResponse := lastResponse cc; respStatusCode := respStatusCode cc;
     respHeaders := respHeaders cc; rawRespBody := v;
     contentLength := contentLength cc |}.

Definition set_contentLength (v : Z) (cc : CrocClient) : CrocClient :=
  {| url := url cc; method := method cc; headers := headers cc;
     client := client cc; transport := transport cc; cookies := cookies cc;
     basicAuth := basicAuth cc; rawBody := rawBody cc; proxy := proxy cc;
     err := err cc; lastRequest := lastRequest cc;
     lastResponse := lastResponse cc; respStatusCode := respStatusCode cc;
     respHeaders := respHeaders cc; rawRespBody := rawRespBody cc;
     contentLength := v |}.

(** *** Methods

    A method [func (cc *CrocClient) M(args) *CrocClient] becomes
    [M args : CrocClient → CrocClient]; a chain [cc.A().B()] reads
    [B (A cc)]. *)

Definition Error (cc : CrocClient) : option error := err cc.

Definition ClearRequestData (cc : CrocClient) : CrocClient :=
  let cc := set_url "" cc in
  let cc := set_method "" cc in
  let cc := set_headers ∅ cc in
  let cc := set_basicAuth {| Username := ""; Password := "" |} cc in
  set_rawBody [] cc.

Definition ClearCookies (cc : CrocClient) : CrocClient := set_cookies [] cc.

Definition ClearProxy (cc : CrocClient) : CrocClient := set_proxy None cc.

Definition Get (targetUrl : string) (cc : CrocClient) : CrocClient :=
  let cc := ClearRequestData cc in
  let cc := set_method GET cc in
  let cc := set_url targetUrl cc in
  set_err None cc.

Definition Post (targetUrl : string) (cc : CrocClient) : CrocClient :=
  let cc := ClearRequestData cc in
  let cc := set_method POST cc in
  let cc := set_url targetUrl cc in
  set_err None cc.

Definition Put (targetUrl : string) (cc : CrocClient) : CrocClient :=
  let cc := ClearRequestData cc in
  let cc := set_method PUT cc in
  let cc := set_url targetUrl cc in
  set_err None cc.

Definition Delete (targetUrl : string) (cc : CrocClient) : CrocClient :=
  let cc := ClearRequestData cc in
  let cc := set_method DELETE cc in
  let cc := set_url targetUrl cc in
  set_err None cc.

Definition Head (targetUrl : string) (cc : CrocClient) : CrocClient :=
  let cc := ClearRequestData cc in
  let cc := set_method HEAD cc in
  let cc := set_url targetUrl cc in
  set_err None cc.

Definition Patch (targetUrl : string) (cc : CrocClient) : CrocClient :=
  let cc := ClearRequestData cc in
  let cc := set_method PATCH cc in
  let cc := set_url targetUrl cc in
  set_err None cc.

Definition Options (targetUrl : string) (cc : CrocClient) : CrocClient :=
  let cc := ClearRequestData cc in
  let cc := set_method OPTIONS cc in
  let cc := set_url targetUrl cc in
  set_err None cc.

Definition AddCookies (cks : list http_Cookie) (cc : CrocClient) : CrocClient :=
  set_cookies (cookies cc ++ cks)%list cc.

Definition SetHeader (key value : string) (cc : CrocClient) : CrocClient :=
  set_headers (Header_Set key value (headers cc)) cc.

Definition AppendHeader (key value : string) (cc : CrocClient) : CrocClient :=
  set_headers (Header_Add key value (headers cc)) cc.

Definition SetBasicAuth (username password : string) (cc : CrocClient)
    : CrocClient :=
  set_basicAuth {| Username := username; Password := password |} cc.

Definition Proxy (proxyUrl : string) (cc : CrocClient) : CrocClient :=
  match url_Parse proxyUrl with
  | inr e => set_err (Some e) cc
  | inl parsedUrl => set_proxy (Some (http_ProxyURL parsedUrl)) cc
  end.

Definition Payload (data : list Byte.byte) (cc : CrocClient) : CrocClient :=
  set_rawBody data cc.

(** The loop that copies the accumulated headers onto a request:
    [req.Header.Add(key, value)] for every value of every entry.  Go
    visits the entries of a map in an order of its own choosing, so the
    loop is written over a list of entries and the assembly takes the
    order as an argument; [makeRequest] runs it in the order of
    [map_to_list], and [makeRequest_order] shows that on headers built by
    this package every order gives the same request. *)
Definition add_values (key : string) (values : list string) (h : Header)
    : Header :=
  foldl (λ acc value, Header_Add key value acc) h values.

Definition copy_headers (entries : list (string * list string)) (h : Header)
    : Header :=
  foldl (λ acc kv, add_values kv.1 kv.2 acc) h entries.

Definition emptyAuth : BasicAuth := {| Username := ""; Password := "" |}.

Definition makeRequest_in (entries : list (string * list string))
    (cc : CrocClient) : http_Request + error :=
  if String.eqb (method cc) "" then inr no_method
  else if String.eqb (url cc) "" then inr no_url
  else
    (* create a request object *)
    match http_NewRequest (method cc) (url cc) (rawBody cc) with
    | inr e => inr e
    | inl req =>
        (* populate it with header data *)
        let req :=
          set_req_Header
            (copy_headers entries (req_Header req)) req in
        (* add basic auth *)
        let req :=
          if decide (basicAuth cc = emptyAuth) then req
          else req_SetBasicAuth (Username (basicAuth cc))
                                (Password (basicAuth cc)) req in
        (* add cookies *)
        inl (foldl (λ r cookie, req_AddCookie cookie r) req (cookies cc))
    end.

Definition makeRequest (cc : CrocClient) : http_Request + error :=
  makeRequest_in (map_to_list (headers cc)) cc.

(** The two assignments that open both [End] and [Do]:
    [cc.transport.Proxy = cc.proxy] and
    [cc.client.Transport = cc.transport]. *)
Definition install_transport (cc : CrocClient) : CrocClient :=
  let t := {| DisableKeepAlives := DisableKeepAlives (transport cc);
              transport_Proxy := proxy cc |} in
  let cc := set_transport t cc in
  set_client {| Jar := Jar (client cc); client_Transport := Some t |} cc.

(** [End] ends the call chain and makes the request.  It returns the
    error, the builder and the world as the call leaves them. *)
Definition End (cc : CrocClient) (w : World)
    : option error * CrocClient * World :=
  match err cc with
  | Some e => (Some e, cc, w)
  | None =>
      match makeRequest cc with
      | inr e => (Some e, set_err (Some e) cc, w)
      | inl req =>
          let cc := set_lastRequest (Some req) cc in
          let cc := install_transport cc in
          (* now make a request *)
          let '(res, w) := client_Do (client cc) req w in
          match res with
          | inr e => (Some e, set_err (Some e) cc, w)
          | inl resp =>
              let cc := set_lastResponse (Some resp) cc in
              match io_ReadAll (resp_Body resp) with
              | (_, Some e) => (Some e, set_err (Some e) cc, w)
              | (body, None) =>
                  let cc := set_rawRespBody body cc in
                  let cc := set_respStatusCode (StatusCode resp) cc in
                  let cc := set_respHeaders (resp_Header resp) cc in
                  let cc := set_contentLength (ContentLength resp) cc in
                  (None, cc, w)
              end
          end
      end
  end.

Definition Request (cc : CrocClient) : option http_Request := lastRequest cc.
Definition Response (cc : CrocClient) : option http_Response := lastResponse cc.
Definition RespStatus (cc : CrocClient) : Z := respStatusCode cc.
Definition RespHeaders (cc : CrocClient) : Header := respHeaders cc.
Definition RespLength (cc : CrocClient) : Z := contentLength cc.
Definition RawRespBody (cc : CrocClient) : list Byte.byte := rawRespBody cc.

(** [Do] does a provided request with the proxy that is set, and
    returns the response, the body bytes and the error; a [nil]
    result is [None]. *)
Definition Do (req : http_Request) (cc : CrocClient) (w : World)
    : (option http_Response * option (list Byte.byte) * option error)
      * CrocClient * World :=
  let cc := install_transport cc in
  let '(res, w) := client_Do (client cc) req w in
  match res with
  | inr e => ((None, None, Some e), cc, w)
  | inl resp =>
      match io_ReadAll (resp_Body resp) with
      | (_, Some e) => ((Some resp, None, Some e), cc, w)
      | (body, None) => ((Some resp, Some body, None), cc, w)
      end
  end.

(** The response snapshot. *)
Definition snapshot (cc : CrocClient) : Z * Header * list Byte.byte * Z :=
  (respStatusCode cc, respHeaders cc, rawRespBody cc, contentLength cc).

(** The builder at the moment the request is handed to the client. *)
Definition sending (req : http_Request) (cc : CrocClient) : CrocClient :=
  install_transport (set_lastRequest (Some req) cc).

(** The three results of [End], one at a time. *)
Definition End_error (cc : CrocClient) (w : World) : option error :=
  (End cc w).1.1.
Definition after_End (cc : CrocClient) (w : World) : CrocClient :=
  (End cc w).1.2.
Definition world_after_End (cc : CrocClient) (w : World) : World :=
  (End cc w).2.

End croc.

(** ** Call sequences *)

Section calls.
Context `{!GoLib, !Network}.

(** The method-selection calls, each with the method it selects. *)
Definition method_selection
    : list (string * (string → CrocClient → CrocClient)) :=
  [(GET, Get); (POST, Post); (PUT, Put); (DELETE, Delete);
   (HEAD, Head); (PATCH, Patch); (OPTIONS, Options)].

(** The configuration calls: every chainable method that is not a
    method selection. *)
Inductive ConfigCall : Type :=
| CallAddCookies (cks : list http_Cookie)
| CallSetHeader (key value : string)
| CallAppendHeader (key value : string)
| CallSetBasicAuth (username password : string)
| CallProxy (proxyUrl : string)
| CallPayload (data : list Byte.byte)
| CallClearRequestData
| CallClearCookies
| CallClearProxy.

Definition call (c : ConfigCall) : CrocClient → CrocClient :=
  match c with
  | CallAddCookies cks => AddCookies cks
  | CallSetHeader key value => SetHeader key value
  | CallAppendHeader key value => AppendHeader key value
  | CallSetBasicAuth username password => SetBasicAuth username password
  | CallProxy proxyUrl => Proxy proxyUrl
  | CallPayload data => Payload data
  | CallClearRequestData => ClearRequestData
  | CallClearCookies => ClearCookies
  | CallClearProxy => ClearProxy
  end.

(** A chain of configuration calls, first call first. *)
Definition chain (cs : list ConfigCall) (cc : CrocClient) : CrocClient :=
  foldl (λ acc c, call c acc) cc cs.

(** A call to [Proxy] whose URL does not parse. *)
Definition failing_Proxy (c : ConfigCall) : bool :=
  match c with
  | CallProxy proxyUrl =>
      match url_Parse proxyUrl with inl _ => false | inr _ => true end
  | _ => false
  end.

(** [SetHeader key v] followed by [AppendHeader key v'] for every
    further value. *)
Definition set_then_append (key v : string) (more : list string)
    (cc : CrocClient) : CrocClient :=
  foldl (λ acc v', AppendHeader key v' acc) (SetHeader key v cc) more.

(** An operation retains the stored request and response of a builder
    when the accessors answer after it what they answered before. *)
Definition retains_last (op : CrocClient → CrocClient) (cc : CrocClient)
    : Prop :=
  Request (op cc) = Request cc ∧ Response (op cc) = Response cc.
End calls.

(** ** Sessions *)

Section sessions.
Context `{!GoLib, !Network}.

(** The pair [name=value] under which [Request.AddCookie] writes a
    cookie. *)
Definition cookie_pair (c : http_Cookie) : string :=
  sanitizeCookieName (Name c) ++ "=" ++ sanitizeCookieValue (Value c).

(** What a chain of configuration calls makes of the values of one
    header key, a call being on the key when its key has the same
    canonical form: [SetHeader] replaces them, [AppendHeader] adds to
    them, [ClearRequestData] drops them and every other call leaves them
    alone. *)
Definition values_after (key : string) (cs : list ConfigCall)
    (init : list string) : list string :=
  foldl (λ vs c,
           match c with
           | CallSetHeader k v => if decide (canon k = canon key) then [v] else vs
           | CallAppendHeader k v =>
               if decide (canon k = canon key) then (vs ++ [v])%list else vs
           | CallClearRequestData => []
           | _ => vs
           end) init cs.

(** Every call of the package that works on a builder. *)
Inductive ApiCall : Type :=
| ApiConfig (c : ConfigCall)
| ApiGet (targetUrl : string)
| ApiPost (targetUrl : string)
| ApiPut (targetUrl : string)
| ApiDelete (targetUrl : string)
| ApiHead (targetUrl : string)
| ApiPatch (targetUrl : string)
| ApiOptions (targetUrl : string)
| ApiEnd
| ApiDo (req : http_Request).

Definition api (a : ApiCall) (s : CrocClient * World) : CrocClient * World :=
  match a with
  | ApiConfig c => (call c s.1, s.2)
  | ApiGet targetUrl => (Get targetUrl s.1, s.2)
  | ApiPost targetUrl => (Post targetUrl s.1, s.2)
  | ApiPut targetUrl => (Put targetUrl s.1, s.2)
  | ApiDelete targetUrl => (Delete targetUrl s.1, s.2)
  | ApiHead targetUrl => (Head targetUrl s.1, s.2)
  | ApiPatch targetUrl => (Patch targetUrl s.1, s.2)
  | ApiOptions targetUrl => (Options targetUrl s.1, s.2)
  | ApiEnd => (after_End s.1 s.2, world_after_End s.1 s.2)
  | ApiDo req => ((Do req s.1 s.2).1.2, (Do req s.1 s.2).2)
  end.

(** A session: a builder made by [New], a network in some state on
    which nothing has been sent, and a sequence of calls. *)
Definition session (n : Net) (calls : list ApiCall) : CrocClient * World :=
  foldl (λ s a, api a s) (New, {| net := n; sent := [] |}) calls.

(** The calls of a session that hand a request to the client. *)
Definition sends (a : ApiCall) : bool :=
  match a with
  | ApiEnd | ApiDo _ => true
  | _ => false
  end.

(** A client as the package sets it up: the jar made by [New], and a
    transport on which keep-alives are disabled. *)
Definition client_as_built (c : http_Client) : Prop :=
  Jar c = Some emptyCookieJar ∧
  ∃ t, client_Transport c = Some t ∧ DisableKeepAlives t = true.

(** What [New] sets up and no call undoes: well-formed headers, a
    transport with keep-alives disabled, the jar made by [New] on the
    client, a client whose transport, once set, is the transport of the
    builder, and a log in which every request went through a client as
    built. *)
Definition as_built (s : CrocClient * World) : Prop :=
  header_wf (headers s.1) ∧
  DisableKeepAlives (transport s.1) = true ∧
  Jar (client s.1) = Some emptyCookieJar ∧
  (client_Transport (client s.1) = None ∨
   client_Transport (client s.1) = Some (transport s.1)) ∧
  Forall (λ cr, client_as_built cr.1) (sent s.2).

(** Whether a call, made in a given state, is an execution that
    succeeds: an [End] that returns no error. *)
Definition succeeds (a : ApiCall) (s : CrocClient * World) : bool :=
  match a with
  | ApiEnd => match End_error s.1 s.2 with None => true | Some _ => false end
  | _ => false
  end.

(** A session together with the answer to: has an execution of it
    succeeded? *)
Definition session_flagged (n : Net) (calls : list ApiCall)
    : (CrocClient * World) * bool :=
  foldl (λ sb a, (api a sb.1, sb.2 || succeeds a sb.1))
        ((New, {| net := n; sent := [] |}), false) calls.

Definition succeeded (n : Net) (calls : list ApiCall) : bool :=
  (session_flagged n calls).2.

Definition is_End (a : ApiCall) : bool :=
  match a with
  | ApiEnd => true
  | _ => false
  end.

(** The calls that can store an error: [End], and a [Proxy] whose URL
    does not parse. *)
Definition may_store_error (a : ApiCall) : bool :=
  match a with
  | ApiEnd => true
  | ApiConfig c => failing_Proxy c
  | _ => false
  end.

(** The stored results come in steps: no response is stored before a
    request is, and the snapshot is the initial one until a response is
    stored. *)
Definition results_in_step (cc : CrocClient) : Prop :=
  (lastRequest cc = None → lastResponse cc = None) ∧
  (lastResponse cc = None → snapshot cc = snapshot New).
End sessions.

(** ** A stub of the collaborators

    Used to run the builder on concrete inputs: URLs are kept as written
    (but for an empty port, which a request drops) and rejected when
    they hold a control character, base64 is the
    standard encoding, cookie names and values are left alone, and the
    network answers the requests it receives from a script, one entry
    per request. *)

Definition is_control (c : ascii) : bool :=
  ((N_of_ascii c <? 32) || (N_of_ascii c =? 127))%N.

Definition parse_error (s : string) : error :=
  foreign_error "net/url" ("parse " ++ s ++ ": invalid control character in URL").

Module base64.
Definition encodeStd : list ascii :=
  list_ascii_of_string
    "ABCDEFGHIJKLMNOPQRSTUVWXYZabcdefghijklmnopqrstuvwxyz0123456789+/".

Definition digit (n : N) : ascii := nth (N.to_nat n) encodeStd "="%char.

Fixpoint encode (src : list ascii) : string :=
  match src with
  | [] => ""
  | [a] =>
      let n := (N_of_ascii a * 65536)%N in
      String (digit (n / 262144)) (String (digit (n / 4096 mod 64)) "==")
  | [a; b] =>
      let n := (N_of_ascii a * 65536 + N_of_ascii b * 256)%N in
      String (digit (n / 262144)) (String (digit (n / 4096 mod 64))
        (String (digit (n / 64 mod 64)) "="))
  | a :: b :: c :: rest =>
      let n := (N_of_ascii a * 65536 + N_of_ascii b * 256 + N_of_ascii c)%N in
      String (digit (n / 262144)) (String (digit (n / 4096 mod 64))
        (String (digit (n / 64 mod 64)) (String (digit (n mod 64))
          (encode rest))))
  end.

Definition EncodeToString (s : string) : string :=
  encode (list_ascii_of_string s).
End base64.

(** The stub's [removeEmptyPort]: in a URL written scheme://host/rest
    a host that ends in a colon loses that colon. *)
Definition stub_removeEmptyPort (s : string) : string :=
  match String.index 0 "://" s with
  | None => s
  | Some i =>
      let start := (i + 3)%nat in
      let rest := String.substring start (String.length s - start) s in
      let hostlen :=
        match String.index 0 "/" rest with
        | Some j => j
        | None => String.length rest
        end in
      if Nat.ltb 0 hostlen
         && String.eqb (String.substring (hostlen - 1) 1 rest) ":"
      then String.substring 0 (start + hostlen - 1) s
           ++ String.substring hostlen (String.length rest - hostlen) rest
      else s
  end.

Definition stubLib : GoLib := {|
  URL := string;
  url_Parse s :=
    if existsb is_control (list_ascii_of_string s) then inr (parse_error s)
    else inl s;
  url_removeEmptyPort := stub_removeEmptyPort;
  base64_EncodeToString := base64.EncodeToString;
  sanitizeCookieName s := s;
  sanitizeCookieValue s := s;
|}.

Definition stubNet : @Network stubLib := {|
  Net := list (http_Response + error);
  roundTrip _ _ script :=
    match script with
    | [] => (inr (foreign_error "net/http" "connection refused"), [])
    | answer :: script => (answer, script)
    end;
|}.

Section scenarios.
Local Existing Instances stubLib stubNet.

Definition unexpected_EOF : error := foreign_error "io" "unexpected EOF".

(** A response whose body reads to the end, and one whose body breaks
    off. *)
Definition ok_response : http_Response := {|
  StatusCode := 200;
  resp_Header := {["Content-Type" := ["text/plain"]]};
  ContentLength := 2;
  resp_Body := {| stream_data := [Byte.x6f; Byte.x6b]; stream_err := None |};
|}.

Definition cut_response : http_Response := {|
  StatusCode := 200;
  resp_Header := {["Content-Type" := ["text/plain"]]};
  ContentLength := 2;
  resp_Body := {| stream_data := [Byte.x6f];
                  stream_err := Some unexpected_EOF |};
|}.

(** A world in which nothing has been sent yet and the network will
    answer from [script]. *)
Definition world (script : list (http_Response + error)) : World :=
  {| net := script; sent := [] |}.

(** Two URLs that do not parse: a line feed, a tab. *)
Definition bad_url_1 : string := String "010"%char "proxy:8080".
Definition bad_url_2 : string := String "009"%char "proxy:8080".

(** [New().Get("http://example/x")], and the builder after that
    request has been served. *)
Definition fetching : CrocClient := Get "http://example/x" New.

Definition served : CrocClient := after_End fetching (world [inl ok_response]).

(** A request built by hand, as a caller of [Do] would. *)
Definition premade : http_Request := {|
  req_Method := "GET";
  req_URL := "http://example/premade";
  req_Header := ∅;
  req_Body := [];
|}.

Definition session_cookie : http_Cookie := {| Name := "sid"; Value := "42" |}.

Definition lang_cookie : http_Cookie := {| Name := "lang"; Value := "en" |}.

Definition stale_cookie : http_Cookie := {| Name := "old"; Value := "1" |}.

(** [New().Get("http://example/x")] with two headers set. *)
Definition two_headers : CrocClient :=
  SetHeader "Accept" "text/html" (SetHeader "X-Token" "1" fetching).

Definition connection_refused : error :=
  foreign_error "net/http" "connection refused".

(** A target url with an empty port, and one header. *)
Definition empty_port : CrocClient :=
  SetHeader "X-Token" "1" (Get "http://example:/x" New).

(** A session of one execution that fails. *)
Definition one_failing_End : list ApiCall := [ApiGet "http://example/x"; ApiEnd].
End scenarios.

(** * Facts *)

(** ** Header keys *)

Section textproto_facts.
Import textproto.

Lemma canonByte_idem u c : canonByte u (canonByte u c) = canonByte u c.
Proof.
  destruct u, c as [[] [] [] [] [] [] [] []]; reflexivity.
Qed.

Lemma canonByte_valid u c :
  validHeaderFieldByte (canonByte u c) = validHeaderFieldByte c.
Proof.
  destruct u, c as [[] [] [] [] [] [] [] []]; reflexivity.
Qed.

Lemma canonLoop_idem s : ∀ u, canonLoop u (canonLoop u s) = canonLoop u s.
Proof.
  induction s as [|c s IH]; intros u; simpl; [done|].
  by rewrite canonByte_idem, IH.
Qed.

Lemma canonLoop_valid s : ∀ u, allValid (canonLoop u s) = allValid s.
Proof.
  induction s as [|c s IH]; intros u; simpl; [done|].
  by rewrite canonByte_valid, IH.
Qed.

Lemma canon_idem k : canon (canon k) = canon k.
Proof.
  unfold CanonicalMIMEHeaderKey.
  destruct (allValid k) eqn:Hk.
  - by rewrite canonLoop_valid, Hk, canonLoop_idem.
  - by rewrite Hk.
Qed.
End textproto_facts.

Example canon_content_type : canon "content-TYPE" = "Content-Type".
Proof. reflexivity. Qed.

Example canon_invalid : canon "not a key" = "not a key".
Proof. reflexivity. Qed.

(** ** The header multimap *)

Section header_facts.
Implicit Types (h : Header) (k key v : string) (vs : list string).

Lemma Header_Values_Set key v h : Header_Values key (Header_Set key v h) = [v].
Proof. unfold Header_Values, Header_Set. by rewrite lookup_insert_eq. Qed.

Lemma Header_Values_Add key v h :
  Header_Values key (Header_Add key v h) = (Header_Values key h ++ [v])%list.
Proof. unfold Header_Values, Header_Add. by rewrite lookup_insert_eq. Qed.

Lemma Header_Values_Set_ne k key v h :
  canon k ≠ canon key → Header_Values k (Header_Set key v h) = Header_Values k h.
Proof. intros Hne. unfold Header_Values, Header_Set. by rewrite lookup_insert_ne. Qed.

Lemma header_wf_empty : header_wf ∅.
Proof. intros k vs Hk. by rewrite lookup_empty in Hk. Qed.

Lemma header_wf_insert k vs h :
  canon k = k → vs ≠ [] → header_wf h → header_wf (<[k := vs]> h).
Proof.
  intros Hk Hvs Hwf j ws. rewrite lookup_insert.
  case_decide as Hj; [|by apply Hwf].
  intros [= <-]. by subst j.
Qed.

Lemma header_wf_Set key v h : header_wf h → header_wf (Header_Set key v h).
Proof. apply header_wf_insert; [apply canon_idem | done]. Qed.

Lemma header_wf_Add key v h : header_wf h → header_wf (Header_Add key v h).
Proof.
  apply header_wf_insert; [apply canon_idem |].
  by destruct (default [] (h !! canon key)).
Qed.
End header_facts.

(** ** Copying headers onto a request *)

Section copy_facts.
Implicit Types (h : Header) (k key v : string) (vs : list string).
Implicit Types (l : list (string * list string)).

Lemma add_values_snoc key vs v h :
  add_values key (vs ++ [v]) h = Header_Add key v (add_values key vs h).
Proof. unfold add_values. by rewrite foldl_snoc. Qed.

(** Adding a non-empty list of values under a canonical key appends
    it to the values already there. *)
Lemma add_values_canon k vs h :
  canon k = k → vs ≠ [] →
  add_values k vs h = <[k := (default [] (h !! k) ++ vs)%list]> h.
Proof.
  intros Hk. induction vs as [|v vs IH] using rev_ind; [done|]. intros _.
  rewrite add_values_snoc. unfold Header_Add. rewrite Hk.
  destruct vs as [|v0 vs].
  - by rewrite app_nil_l.
  - rewrite IH by done.
    rewrite lookup_insert_eq, insert_insert_eq. simpl.
    by rewrite <-app_assoc.
Qed.

Lemma copy_headers_union l : ∀ h,
  NoDup l.*1 →
  (∀ k vs, (k, vs) ∈ l → canon k = k ∧ vs ≠ []) →
  (∀ k, k ∈ l.*1 → h !! k = None) →
  copy_headers l h = list_to_map l ∪ h.
Proof.
  induction l as [|[k vs] l IH]; intros h Hnd Hl Hh.
  - simpl. by rewrite (left_id_L ∅ (∪)).
  - rewrite fmap_cons in Hnd, Hh. simpl in Hnd, Hh.
    apply NoDup_cons in Hnd as [Hk Hnd].
    destruct (Hl k vs) as [Hck Hvs]; [left|].
    change (copy_headers ((k, vs) :: l) h)
      with (copy_headers l (add_values k vs h)).
    rewrite add_values_canon by done.
    rewrite (Hh k) by left. simpl.
    rewrite IH; [| done | intros; apply Hl; by right |].
    + simpl. rewrite <-insert_union_l. symmetry. apply insert_union_r.
      by apply not_elem_of_list_to_map_1.
    + intros j Hj. rewrite lookup_insert_ne; [apply Hh; by right|].
      by intros ->.
Qed.

(** On a well-formed header the copy loop rebuilds the header, in
    whatever order it visits the entries. *)
Lemma copy_headers_order h l :
  header_wf h → l ≡ₚ map_to_list h → copy_headers l ∅ = h.
Proof.
  intros Hwf Hl. rewrite copy_headers_union.
  - rewrite (right_id_L ∅ (∪)).
    rewrite <-(list_to_map_to_list h).
    apply list_to_map_proper; [|done].
    rewrite Hl. apply NoDup_fst_map_to_list.
  - rewrite Hl. apply NoDup_fst_map_to_list.
  - intros k vs Hin. apply Hwf. apply elem_of_map_to_list. by rewrite <-Hl.
  - intros. apply lookup_empty.
Qed.

Lemma copy_headers_wf h : header_wf h → copy_headers (map_to_list h) ∅ = h.
Proof. intros Hwf. by apply copy_headers_order. Qed.
End copy_facts.

(** ** Request assembly *)

Section request_facts.
Context `{!GoLib}.
Implicit Types (cc : CrocClient) (req : http_Request) (k key v : string).

Lemma http_NewRequest_inl m u body req :
  http_NewRequest m u body = inl req →
  req_Method req = (if String.eqb m "" then "GET" else m) ∧
  req_Header req = ∅ ∧ req_Body req = body.
Proof.
  unfold http_NewRequest. destruct (validMethod _); [|done].
  destruct (url_Parse u); [|done]. by intros [= <-].
Qed.

Lemma req_SetBasicAuth_values k u p req :
  canon k ≠ "Authorization" →
  Header_Values k (req_Header (req_SetBasicAuth u p req))
  = Header_Values k (req_Header req).
Proof. intros Hk. simpl. by apply Header_Values_Set_ne. Qed.

Lemma req_AddCookie_values k c req :
  canon k ≠ "Cookie" →
  Header_Values k (req_Header (req_AddCookie c req))
  = Header_Values k (req_Header req).
Proof.
  intros Hk. unfold req_AddCookie.
  destruct (String.eqb _ _); simpl; by apply Header_Values_Set_ne.
Qed.

Lemma add_cookies_values k cs : ∀ req,
  canon k ≠ "Cookie" →
  Header_Values k (req_Header (foldl (λ r c, req_AddCookie c r) req cs))
  = Header_Values k (req_Header req).
Proof.
  induction cs as [|c cs IH]; intros req Hk; simpl; [done|].
  rewrite IH by done. by apply req_AddCookie_values.
Qed.

(** What a successful assembly went through. *)
Lemma makeRequest_inl cc req :
  makeRequest cc = inl req →
  ∃ req0,
    method cc ≠ "" ∧ url cc ≠ "" ∧
    http_NewRequest (method cc) (url cc) (rawBody cc) = inl req0 ∧
    req = foldl (λ r c, req_AddCookie c r)
            (let r := set_req_Header
                        (copy_headers (map_to_list (headers cc)) ∅) req0 in
             if decide (basicAuth cc = emptyAuth) then r
             else req_SetBasicAuth (Username (basicAuth cc))
                                   (Password (basicAuth cc)) r)
            (cookies cc).
Proof.
  unfold makeRequest, makeRequest_in.
  destruct (String.eqb_spec (method cc) ""); [done|].
  destruct (String.eqb_spec (url cc) ""); [done|].
  destruct (http_NewRequest _ _ _) as [req0|e] eqn:Hnew; [|done].
  intros [= <-]. exists req0. repeat split; try done.
  by destruct (http_NewRequest_inl _ _ _ _ Hnew) as (_ & -> & _).
Qed.

(** Whatever order the copy loop visits the entries in, a builder
    with well-formed headers assembles the same request. *)
Lemma makeRequest_order cc entries :
  header_wf (headers cc) →
  entries ≡ₚ map_to_list (headers cc) →
  makeRequest_in entries cc = makeRequest cc.
Proof.
  intros Hwf Hperm. unfold makeRequest, makeRequest_in.
  destruct (String.eqb (method cc) ""); [done|].
  destruct (String.eqb (url cc) ""); [done|].
  destruct (http_NewRequest _ _ _) as [req0|e] eqn:Hnew; [|done].
  apply http_NewRequest_inl in Hnew as (_ & -> & _).
  by rewrite (copy_headers_order _ _ Hwf Hperm), (copy_headers_wf _ Hwf).
Qed.

(** The values a key has on the assembled request are the ones
    accumulated for it, unless basic auth or the cookies claim the
    key. *)
Lemma makeRequest_values cc req k :
  header_wf (headers cc) →
  makeRequest cc = inl req →
  basicAuth cc = emptyAuth ∨ canon k ≠ "Authorization" →
  cookies cc = [] ∨ canon k ≠ "Cookie" →
  Header_Values k (req_Header req) = Header_Values k (headers cc).
Proof.
  intros Hwf (req0 & _ & _ & _ & ->)%makeRequest_inl Hauth Hck.
  rewrite copy_headers_wf by done.
  assert (Header_Values k (req_Header
            (let r := set_req_Header (headers cc) req0 in
             if decide (basicAuth cc = emptyAuth) then r
             else req_SetBasicAuth (Username (basicAuth cc))
                                   (Password (basicAuth cc)) r))
          = Header_Values k (headers cc)) as Hstep.
  { simpl. case_decide as Hz; [done|].
    destruct Hauth as [|Hk]; [done|]. by rewrite req_SetBasicAuth_values. }
  destruct Hck as [->|Hk]; [done|].
  by rewrite add_cookies_values.
Qed.

Lemma makeRequest_basicAuth cc req :
  makeRequest cc = inl req →
  basicAuth cc ≠ emptyAuth →
  Header_Values "Authorization" (req_Header req)
  = [basicAuth_value (Username (basicAuth cc)) (Password (basicAuth cc))].
Proof.
  intros (req0 & _ & _ & _ & ->)%makeRequest_inl Hauth.
  rewrite add_cookies_values by done.
  simpl. rewrite decide_False by done.
  apply Header_Values_Set.
Qed.

Lemma headers_set_then_append key v more cc :
  header_wf (headers cc) →
  header_wf (headers (set_then_append key v more cc)) ∧
  Header_Values key (headers (set_then_append key v more cc)) = v :: more ∧
  basicAuth (set_then_append key v more cc) = basicAuth cc ∧
  cookies (set_then_append key v more cc) = cookies cc.
Proof.
  intros Hwf. unfold set_then_append.
  induction more as [|v' more IH] using rev_ind; simpl.
  - split; [by apply header_wf_Set|]. split; [apply Header_Values_Set|done].
  - rewrite foldl_snoc. destruct IH as (IH1 & IH2 & IH3 & IH4). simpl.
    split; [by apply header_wf_Add|].
    rewrite Header_Values_Add, IH2. done.
Qed.
End request_facts.

(** ** The executor *)

Section End_facts.
Context `{!GoLib, !Network}.
Implicit Types (cc : CrocClient) (w : World) (req : http_Request).
Implicit Types (e : error) (resp : http_Response).

Lemma End_pending cc w e : err cc = Some e → End cc w = (Some e, cc, w).
Proof. intros He. unfold End. by rewrite He. Qed.

Lemma End_assembly_error cc w e :
  err cc = None → makeRequest cc = inr e →
  End cc w = (Some e, set_err (Some e) cc, w).
Proof. intros He Hreq. unfold End. by rewrite He, Hreq. Qed.

Lemma makeRequest_empty cc :
  method cc = "" ∨ url cc = "" →
  makeRequest cc = inr (if String.eqb (method cc) "" then no_method else no_url).
Proof.
  intros Hempty. unfold makeRequest, makeRequest_in.
  destruct (String.eqb_spec (method cc) ""); [done|].
  destruct Hempty as [? | ->]; done.
Qed.

(** [End] on a builder with no pending error whose request assembles,
    by the answer of the client. *)
Lemma End_sent cc w req res w1 :
  err cc = None → makeRequest cc = inl req →
  client_Do (client (install_transport cc)) req w = (res, w1) →
  End cc w =
    match res with
    | inr e => (Some e, set_err (Some e) (sending req cc), w1)
    | inl resp =>
        let cc1 := set_lastResponse (Some resp) (sending req cc) in
        match stream_err (resp_Body resp) with
        | Some e => (Some e, set_err (Some e) cc1, w1)
        | None =>
            (None,
             set_contentLength (ContentLength resp)
               (set_respHeaders (resp_Header resp)
                  (set_respStatusCode (StatusCode resp)
                     (set_rawRespBody (stream_data (resp_Body resp)) cc1))),
             w1)
        end
    end.
Proof.
  intros He Hreq Hdo. unfold End. rewrite He, Hreq.
  change (client (install_transport (set_lastRequest (Some req) cc)))
    with (client (install_transport cc)).
  rewrite Hdo. destruct res as [resp|e]; [|done].
  unfold io_ReadAll. by destruct (stream_err (resp_Body resp)).
Qed.

Lemma End_failure_snapshot cc w e :
  End_error cc w = Some e → snapshot (after_End cc w) = snapshot cc.
Proof.
  unfold End_error, after_End, End.
  destruct (err cc); [done|].
  destruct (makeRequest cc) as [req|]; [|done].
  destruct (client_Do _ _ _) as [[resp|] w1]; [|done].
  unfold io_ReadAll. by destruct (stream_err (resp_Body resp)).
Qed.
End End_facts.

(** ** Well-formed headers are an invariant of the builder *)

Section reachable_facts.
Context `{!GoLib, !Network}.
Implicit Types (cc : CrocClient) (w : World).

Lemma New_header_wf : header_wf (headers New).
Proof. apply header_wf_empty. Qed.

Lemma call_header_wf c cc :
  header_wf (headers cc) → header_wf (headers (call c cc)).
Proof.
  intros Hwf. destruct c; simpl; try done.
  - by apply header_wf_Set.
  - by apply header_wf_Add.
  - unfold Proxy. by destruct (url_Parse proxyUrl).
Qed.

Lemma method_selection_header_wf m sel targetUrl cc :
  (m, sel) ∈ method_selection → header_wf (headers (sel targetUrl cc)).
Proof.
  intros Hsel. unfold method_selection in Hsel.
  repeat (apply elem_of_cons in Hsel as [[= -> ->]|Hsel]);
    [apply header_wf_empty.. | by apply elem_of_nil in Hsel].
Qed.

Lemma End_headers cc w : headers (after_End cc w) = headers cc.
Proof.
  unfold after_End, End.
  destruct (err cc); [done|].
  destruct (makeRequest cc) as [req|]; [|done].
  destruct (client_Do _ _ _) as [[resp|] w1]; [|done].
  unfold io_ReadAll. by destruct (stream_err (resp_Body resp)).
Qed.

Lemma Do_headers req cc w : headers (Do req cc w).1.2 = headers cc.
Proof.
  unfold Do.
  destruct (client_Do _ _ _) as [[resp|] w1]; [|done].
  unfold io_ReadAll. by destruct (stream_err (resp_Body resp)).
Qed.
End reachable_facts.

(** * The claims *)

Section claims.
Context `{!GoLib, !Network}.
Implicit Types (cc : CrocClient) (w : World) (req : http_Request).
Implicit Types (e : error) (resp : http_Response).

Local Ltac method_cases H :=
  unfold method_selection in H;
  repeat (apply elem_of_cons in H as [[= -> ->]|H]);
  [.. | by apply elem_of_nil in H].

Lemma End_sent_log cc w req :
  err cc = None → makeRequest cc = inl req →
  sent (world_after_End cc w)
  = (sent w ++ [(client (install_transport cc), req)])%list.
Proof.
  intros He Hreq. unfold world_after_End.
  destruct (client_Do (client (install_transport cc)) req w) as [res w1] eqn:Hdo.
  rewrite (End_sent _ _ _ _ _ He Hreq Hdo).
  unfold client_Do in Hdo. destruct (roundTrip _ _ _) as [res' n].
  injection Hdo as -> <-.
  destruct res as [resp|]; [|done]. simpl.
  by destruct (stream_err (resp_Body resp)).
Qed.

(** C1: with a sticky error pending, [End] returns that very error and
    hands back the builder and the world as they were; the log of the
    world shows that nothing went to the transport.  A [Proxy] call
    whose URL does not parse leads to such a state: it stores the parse
    error and leaves the proxy resolver as it was, so the [End] that
    follows returns the parse error at once. *)
Theorem End_pending_error cc w :
  (∀ e, err cc = Some e →
     End cc w = (Some e, cc, w) ∧ sent (world_after_End cc w) = sent w) ∧
  (∀ proxyUrl e, url_Parse proxyUrl = inr e →
     Error (Proxy proxyUrl cc) = Some e ∧
     proxy (Proxy proxyUrl cc) = proxy cc ∧
     (proxy cc = None → proxy (Proxy proxyUrl cc) = None) ∧
     End (Proxy proxyUrl cc) w = (Some e, Proxy proxyUrl cc, w)).
Proof.
  split.
  - intros e He. unfold world_after_End. by rewrite (End_pending _ _ _ He).
  - intros proxyUrl e Hparse. unfold Proxy, Error. rewrite Hparse.
    split; [done|]. split; [done|]. split; [done|]. by apply End_pending.
Qed.

(** C2, as amended: when [End] is called with no pending error but an
    empty method or an empty url, assembly fails with "no method
    specified" (empty method) or "no url specified"; [End] stores that
    error as the sticky error and returns it, nothing is sent, and
    lastRequest, lastResponse and the response snapshot are all left as
    they were. *)
Theorem End_assembly_failure cc w :
  err cc = None →
  method cc = "" ∨ url cc = "" →
  let e := if String.eqb (method cc) "" then no_method else no_url in
  End cc w = (Some e, set_err (Some e) cc, w) ∧
  Error (after_End cc w) = Some e ∧
  Request (after_End cc w) = Request cc ∧
  Response (after_End cc w) = Response cc ∧
  snapshot (after_End cc w) = snapshot cc.
Proof.
  intros He Hempty e.
  pose proof (End_assembly_error cc w e He (makeRequest_empty cc Hempty)) as HEnd.
  unfold after_End. by rewrite HEnd.
Qed.

(** C3: [End] changes the response snapshot only when it returns no
    error.  Once the request has been assembled and handed to the
    client: on a transport failure the snapshot and lastResponse stay as
    they were; on a failure to read the body the snapshot stays as it
    was while lastResponse already is the new response; on success
    lastResponse is the new response and the snapshot holds its status
    code, headers, body bytes and content length. *)
Theorem End_snapshot cc w :
  (∀ e, End_error cc w = Some e → snapshot (after_End cc w) = snapshot cc) ∧
  (∀ req res w1,
     err cc = None → makeRequest cc = inl req →
     client_Do (client (install_transport cc)) req w = (res, w1) →
     match res with
     | inr e =>
         End_error cc w = Some e ∧
         snapshot (after_End cc w) = snapshot cc ∧
         Response (after_End cc w) = Response cc
     | inl resp =>
         Response (after_End cc w) = Some resp ∧
         match stream_err (resp_Body resp) with
         | Some e =>
             End_error cc w = Some e ∧
             snapshot (after_End cc w) = snapshot cc
         | None =>
             End_error cc w = None ∧
             snapshot (after_End cc w)
             = (StatusCode resp, resp_Header resp,
                stream_data (resp_Body resp), ContentLength resp)
         end
     end).
Proof.
  split; [apply End_failure_snapshot|].
  intros req res w1 He Hreq Hdo.
  unfold End_error, after_End. rewrite (End_sent _ _ _ _ _ He Hreq Hdo).
  destruct res as [resp|e]; [|done]. simpl.
  by destruct (stream_err (resp_Body resp)).
Qed.

(** C4: every method-selection call sets the method it stands for and
    the url it is given, empties headers, basic auth and body, clears
    the sticky error, and leaves the pending cookies and the proxy
    resolver as they were.  The request assembled next is a fresh
    request for that method and url, with an empty body, to which
    exactly the pending cookies are attached, and the [End] that sends
    it hands the client a transport that carries the stored proxy. *)
Theorem method_selection_resets m sel targetUrl cc :
  (m, sel) ∈ method_selection →
  let cc' := sel targetUrl cc in
  (method cc' = m ∧ url cc' = targetUrl ∧ headers cc' = ∅ ∧
   basicAuth cc' = emptyAuth ∧ rawBody cc' = [] ∧ err cc' = None) ∧
  (cookies cc' = cookies cc ∧ proxy cc' = proxy cc) ∧
  (∀ req, makeRequest cc' = inl req →
     (∃ req0, http_NewRequest m targetUrl [] = inl req0 ∧
              req = foldl (λ r c, req_AddCookie c r) req0 (cookies cc)) ∧
     ∀ w, ∃ c,
       sent (world_after_End cc' w) = (sent w ++ [(c, req)])%list ∧
       client_Transport c
       = Some {| DisableKeepAlives := DisableKeepAlives (transport cc);
                 transport_Proxy := proxy cc |}).
Proof.
  intros Hsel cc'.
  assert (cc' = set_err None (set_url targetUrl (set_method m (ClearRequestData cc))))
    as Hcc' by (subst cc'; method_cases Hsel; reflexivity).
  clearbody cc'. subst cc'. split; [done|]. split; [done|].
  intros req Hreq. split.
  - apply makeRequest_inl in Hreq as (req0 & _ & _ & Hnew & ->).
    simpl in Hnew. exists req0. split; [done|]. simpl.
    rewrite map_to_list_empty. f_equal.
    apply http_NewRequest_inl in Hnew as (_ & Hh & _).
    destruct req0; simpl in *; by subst.
  - intros w. eexists. split; [by apply End_sent_log|done].
Qed.
(** C5, as amended: take a key that basic auth does not claim (its
    canonical form is not Authorization, or no credentials are stored)
    and that the cookies do not claim (its canonical form is not
    Cookie, or no cookie is pending).  Then, whatever header calls came
    before, [SetHeader key v] followed by any number of [AppendHeader]
    calls on the key yields exactly [v] and the appended values, in
    order, for the key on the assembled request, and [SetHeader key v0]
    followed by [SetHeader key v] yields exactly [v]. *)
Theorem header_calls_on_request cc key v0 v more req req' :
  header_wf (headers cc) →
  basicAuth cc = emptyAuth ∨ canon key ≠ "Authorization" →
  cookies cc = [] ∨ canon key ≠ "Cookie" →
  makeRequest (set_then_append key v more cc) = inl req →
  makeRequest (SetHeader key v (SetHeader key v0 cc)) = inl req' →
  Header_Values key (req_Header req) = v :: more ∧
  Header_Values key (req_Header req') = [v].
Proof.
  intros Hwf Hauth Hck Hreq Hreq'. split.
  - destruct (headers_set_then_append key v more cc Hwf)
      as (Hwf' & Hvals & Hba & Hcs).
    rewrite (makeRequest_values _ _ key Hwf' Hreq); [done|..].
    + by rewrite Hba.
    + by rewrite Hcs.
  - rewrite (makeRequest_values (SetHeader key v (SetHeader key v0 cc)) req' key);
      try done.
    + apply Header_Values_Set.
    + by do 2 apply header_wf_Set.
Qed.

Lemma chain_snoc cs c cc : chain (cs ++ [c]) cc = call c (chain cs cc).
Proof. unfold chain. by rewrite foldl_snoc. Qed.

Lemma call_set_err c e cc :
  failing_Proxy c = false →
  call c (set_err (Some e) cc) = set_err (Some e) (call c cc).
Proof.
  destruct c; simpl; try done.
  unfold Proxy. by destruct (url_Parse proxyUrl).
Qed.

(** C6, as amended: configuration calls are not guarded.  A chain of
    configuration calls does the same work on the builder whether or
    not an error is pending; as long as no [Proxy] call in it has a URL
    that fails to parse, the chain leaves the sticky error as it was,
    and the method-selection call that follows clears it. *)
Theorem config_calls_keep_error cs cc :
  Forall (λ c, failing_Proxy c = false) cs →
  Error (chain cs cc) = Error cc ∧
  (∀ e, chain cs (set_err (Some e) cc) = set_err (Some e) (chain cs cc)) ∧
  (∀ m sel targetUrl,
     (m, sel) ∈ method_selection → Error (sel targetUrl (chain cs cc)) = None).
Proof.
  intros Hcs. split; [|split].
  - induction cs as [|c cs IH] using rev_ind; [done|].
    apply Forall_app in Hcs as [Hcs Hc%Forall_inv].
    rewrite chain_snoc, <-(IH Hcs). unfold Error.
    destruct c; simpl; try done.
    unfold Proxy. simpl in Hc. by destruct (url_Parse proxyUrl).
  - intros e. induction cs as [|c cs IH] using rev_ind; [done|].
    apply Forall_app in Hcs as [Hcs Hc%Forall_inv].
    by rewrite !chain_snoc, (IH Hcs), call_set_err.
  - intros m sel targetUrl Hsel. method_cases Hsel; reflexivity.
Qed.

(** C7: when a request is assembled, the Authorization header is the
    basic-auth value of the stored credentials if they differ from the
    zero value, and otherwise holds only what the header calls put
    there.  [SetBasicAuth] with two empty strings stores the zero
    value: on a builder whose credentials were never set it changes
    nothing, and the request assembled after it gets no basic-auth
    header. *)
Theorem basic_auth_on_request cc req :
  header_wf (headers cc) →
  makeRequest cc = inl req →
  (basicAuth cc ≠ emptyAuth →
     Header_Values "Authorization" (req_Header req)
     = [basicAuth_value (Username (basicAuth cc)) (Password (basicAuth cc))]) ∧
  (basicAuth cc = emptyAuth →
     Header_Values "Authorization" (req_Header req)
     = Header_Values "Authorization" (headers cc)) ∧
  basicAuth (SetBasicAuth "" "" cc) = emptyAuth ∧
  (basicAuth cc = emptyAuth → SetBasicAuth "" "" cc = cc) ∧
  (∀ req', makeRequest (SetBasicAuth "" "" cc) = inl req' →
     Header_Values "Authorization" (req_Header req')
     = Header_Values "Authorization" (headers cc)).
Proof.
  intros Hwf Hreq. repeat split.
  - intros Hne. by apply makeRequest_basicAuth.
  - intros Hz. apply makeRequest_values; auto.
  - intros Hz. destruct cc; simpl in *. by subst.
  - intros req' Hreq'.
    by rewrite (makeRequest_values (SetBasicAuth "" "" cc) req') by auto.
Qed.

(** C8: [Do] hands the given request to the client, whose transport
    carries the proxy that is set, and returns: no response, no body
    and the error when sending fails; the response, no body and the
    error when reading the body fails; the response, the body and no
    error otherwise.  In every case the builder keeps lastRequest,
    lastResponse, the sticky error and the response snapshot, as well
    as everything configured for the next request. *)
Theorem Do_frame req cc w res w1 :
  client_Do (client (install_transport cc)) req w = (res, w1) →
  let cc' := (Do req cc w).1.2 in
  (Do req cc w).1.1 =
    match res with
    | inr e => (None, None, Some e)
    | inl resp =>
        match stream_err (resp_Body resp) with
        | Some e => (Some resp, None, Some e)
        | None => (Some resp, Some (stream_data (resp_Body resp)), None)
        end
    end ∧
  (Request cc' = Request cc ∧ Response cc' = Response cc ∧
   Error cc' = Error cc ∧ snapshot cc' = snapshot cc) ∧
  (url cc' = url cc ∧ method cc' = method cc ∧ headers cc' = headers cc ∧
   cookies cc' = cookies cc ∧ basicAuth cc' = basicAuth cc ∧
   rawBody cc' = rawBody cc ∧ proxy cc' = proxy cc) ∧
  (∃ c, sent (Do req cc w).2 = (sent w ++ [(c, req)])%list ∧
        client_Transport c
        = Some {| DisableKeepAlives := DisableKeepAlives (transport cc);
                  transport_Proxy := proxy cc |}).
Proof.
  intros Hdo cc'. subst cc'. unfold Do. rewrite Hdo.
  assert (sent w1 = (sent w ++ [(client (install_transport cc), req)])%list)
    as Hlog.
  { unfold client_Do in Hdo. destruct (roundTrip _ _ _) as [res' n].
    by injection Hdo as -> <-. }
  destruct res as [resp|e].
  - unfold io_ReadAll. destruct (stream_err (resp_Body resp));
      (split; [done|]; split; [done|]; split; [done|]; by eexists).
  - split; [done|]. split; [done|]. split; [done|]. by eexists.
Qed.

(** C9, as amended: a method-selection call leaves the stored
    lastRequest and lastResponse as they were.  [End] stores the newly
    assembled request as lastRequest exactly when no error is pending
    and assembly succeeds, and stores the response as lastResponse
    exactly when, in addition, the client returns one; in every other
    case the stored instance is kept. *)
Theorem last_instances cc :
  (∀ m sel targetUrl,
     (m, sel) ∈ method_selection → retains_last (sel targetUrl) cc) ∧
  (∀ w,
     Request (after_End cc w) =
       match err cc, makeRequest cc with
       | None, inl req => Some req
       | _, _ => Request cc
       end ∧
     Response (after_End cc w) =
       match err cc, makeRequest cc with
       | None, inl req =>
           match (client_Do (client (install_transport cc)) req w).1 with
           | inl resp => Some resp
           | inr _ => Response cc
           end
       | _, _ => Response cc
       end).
Proof.
  split.
  - intros m sel targetUrl Hsel. method_cases Hsel; by split.
  - intros w. unfold after_End, End.
    destruct (err cc); [done|].
    destruct (makeRequest cc) as [req|]; [|done].
    change (client (install_transport (set_lastRequest (Some req) cc)))
      with (client (install_transport cc)).
    destruct (client_Do _ _ _) as [[resp|] w1]; [|done].
    unfold io_ReadAll. by destruct (stream_err (resp_Body resp)).
Qed.
End claims.

(** * Further properties of the package *)

(** ** Strings *)

Lemma string_app_assoc (a b c : string) : (a ++ b) ++ c = a ++ b ++ c.
Proof.
  induction a as [|x a IH]; [done|].
  change (String x ((a ++ b) ++ c) = String x (a ++ b ++ c)). by f_equal.
Qed.

Lemma string_app_nonempty_l (a b : string) : a ≠ "" → a ++ b ≠ "".
Proof. by destruct a. Qed.

Lemma string_app_nonempty_r (a b : string) : b ≠ "" → a ++ b ≠ "".
Proof. intros Hb. destruct a as [|x a]; [done|]. discriminate. Qed.

Lemma concat_cons_app (sep x y : string) (l : list string) :
  String.concat sep ((x ++ sep ++ y) :: l) = String.concat sep (x :: y :: l).
Proof.
  destruct l as [|z l]; [done|].
  change (((x ++ sep ++ y) ++ sep ++ String.concat sep (z :: l))
          = x ++ sep ++ y ++ sep ++ String.concat sep (z :: l)).
  by rewrite !string_app_assoc.
Qed.

(** ** When two keys name the same header *)

Section key_case_facts.
Import textproto.

Lemma canonByte_lowerByte u c : canonByte u (lowerByte c) = canonByte u c.
Proof. destruct u, c as [[] [] [] [] [] [] [] []]; reflexivity. Qed.

Lemma lowerByte_canonByte u c : lowerByte (canonByte u c) = lowerByte c.
Proof. destruct u, c as [[] [] [] [] [] [] [] []]; reflexivity. Qed.

Lemma valid_lowerByte c :
  validHeaderFieldByte (lowerByte c) = validHeaderFieldByte c.
Proof. destruct c as [[] [] [] [] [] [] [] []]; reflexivity. Qed.

Lemma canonLoop_lowerKey s : ∀ u, canonLoop u (lowerKey s) = canonLoop u s.
Proof.
  induction s as [|c s IH]; intros u; simpl; [done|].
  by rewrite canonByte_lowerByte, IH.
Qed.

Lemma lowerKey_canonLoop s : ∀ u, lowerKey (canonLoop u s) = lowerKey s.
Proof.
  induction s as [|c s IH]; intros u; simpl; [done|].
  by rewrite lowerByte_canonByte, IH.
Qed.

Lemma allValid_lowerKey s : allValid (lowerKey s) = allValid s.
Proof.
  induction s as [|c s IH]; simpl; [done|].
  by rewrite valid_lowerByte, IH.
Qed.

Lemma canon_valid k : allValid (canon k) = allValid k.
Proof.
  unfold CanonicalMIMEHeaderKey. destruct (allValid k) eqn:Hk; [|done].
  by rewrite canonLoop_valid.
Qed.

(** Two keys have the same canonical form exactly when they name the
    same header. *)
Lemma canon_eq_iff k key : canon k = canon key ↔ same_header k key.
Proof.
  unfold same_header.
  destruct (allValid k) eqn:Hk, (allValid key) eqn:Hkey; simpl.
  - unfold CanonicalMIMEHeaderKey. rewrite Hk, Hkey. split.
    + intros Heq. by rewrite <-(lowerKey_canonLoop k true), Heq, lowerKey_canonLoop.
    + intros Heq. by rewrite <-(canonLoop_lowerKey k), Heq, canonLoop_lowerKey.
  - split; intros Heq.
    + apply (f_equal allValid) in Heq. rewrite !canon_valid in Heq. congruence.
    + congruence.
  - split; intros Heq.
    + apply (f_equal allValid) in Heq. rewrite !canon_valid in Heq. congruence.
    + congruence.
  - unfold CanonicalMIMEHeaderKey. by rewrite Hk, Hkey.
Qed.
End key_case_facts.

(** ** Requests and cookies *)

Section cookie_facts.
Context `{!GoLib}.
Implicit Types (cc : CrocClient) (req : http_Request) (c : http_Cookie).
Implicit Types (cs : list http_Cookie).

Lemma cookie_pair_nonempty c : cookie_pair c ≠ "".
Proof. unfold cookie_pair. by apply string_app_nonempty_r. Qed.

Lemma req_AddCookie_frame c req :
  req_Method (req_AddCookie c req) = req_Method req ∧
  req_URL (req_AddCookie c req) = req_URL req ∧
  req_Body (req_AddCookie c req) = req_Body req.
Proof. unfold req_AddCookie. by destruct (String.eqb _ _). Qed.

Lemma add_cookies_frame cs : ∀ req,
  req_Method (foldl (λ r c, req_AddCookie c r) req cs) = req_Method req ∧
  req_URL (foldl (λ r c, req_AddCookie c r) req cs) = req_URL req ∧
  req_Body (foldl (λ r c, req_AddCookie c r) req cs) = req_Body req.
Proof.
  induction cs as [|c cs IH]; intros req; simpl; [done|].
  destruct (IH (req_AddCookie c req)) as (-> & -> & ->).
  apply req_AddCookie_frame.
Qed.

(** The header of a request after [AddCookie] depends on its header
    before, and on nothing else of the request. *)
Lemma req_AddCookie_header c req :
  req_Header (req_AddCookie c req)
  = <["Cookie" := [if String.eqb (Header_Get "Cookie" (req_Header req)) ""
                   then cookie_pair c
                   else Header_Get "Cookie" (req_Header req) ++ "; " ++ cookie_pair c]]>
      (req_Header req).
Proof. unfold req_AddCookie, cookie_pair. by destruct (String.eqb _ _). Qed.

Lemma Header_Get_Cookie_insert (s : string) (h : Header) :
  Header_Get "Cookie" (<["Cookie" := [s]]> h) = s.
Proof. unfold Header_Get. by rewrite lookup_insert_eq. Qed.

(** Attaching a non-empty list of cookies leaves one Cookie value: what
    the first value of the header was, if it was not empty, and then the
    pairs of the cookies in order, joined by semicolons. *)
Lemma add_cookies_header cs : ∀ req,
  cs ≠ [] →
  req_Header (foldl (λ r c, req_AddCookie c r) req cs)
  = <["Cookie" :=
        [String.concat "; "
           ((if String.eqb (Header_Get "Cookie" (req_Header req)) "" then []
             else [Header_Get "Cookie" (req_Header req)])
            ++ map cookie_pair cs)]]> (req_Header req).
Proof.
  induction cs as [|c cs IH]; intros req Hcs; [done|]. simpl foldl.
  destruct cs as [|c' cs].
  - simpl. rewrite req_AddCookie_header.
    by destruct (String.eqb _ _).
  - rewrite IH by done. rewrite req_AddCookie_header.
    rewrite Header_Get_Cookie_insert, insert_insert_eq.
    set (old := Header_Get "Cookie" (req_Header req)).
    destruct (String.eqb_spec old "") as [Hold|Hold].
    + rewrite (proj2 (String.eqb_neq _ _) (cookie_pair_nonempty c)). done.
    + rewrite (proj2 (String.eqb_neq _ _)); [|by apply string_app_nonempty_l].
      f_equal. f_equal. apply concat_cons_app.
Qed.
End cookie_facts.

(** ** Assembly *)

Section assembly_facts.
Context `{!GoLib}.
Implicit Types (cc : CrocClient) (req : http_Request) (e : error).

Lemma http_NewRequest_url m u body req :
  http_NewRequest m u body = inl req →
  ∃ parsed, url_Parse u = inl parsed ∧ req_URL req = url_removeEmptyPort parsed.
Proof.
  unfold http_NewRequest. destruct (validMethod _); [|done].
  destruct (url_Parse u) as [parsed|]; [|done]. intros [= <-]. by exists parsed.
Qed.

Lemma chain_header_wf `{!Network} cs cc :
  header_wf (headers cc) → header_wf (headers (chain cs cc)).
Proof.
  intros Hwf. induction cs as [|c cs IH] using rev_ind; [done|].
  rewrite chain_snoc. by apply call_header_wf.
Qed.

Lemma chain_keeps_err `{!Network} cs cc :
  Forall (λ c, failing_Proxy c = false) cs → err (chain cs cc) = err cc.
Proof.
  induction cs as [|c cs IH] using rev_ind; [done|].
  intros [Hcs Hc%Forall_inv]%Forall_app.
  rewrite chain_snoc, <-(IH Hcs).
  destruct c; simpl; try done.
  unfold Proxy. simpl in Hc. by destruct (url_Parse proxyUrl).
Qed.

Lemma call_values `{!Network} key c cc :
  Header_Values key (headers (call c cc))
  = values_after key [c] (Header_Values key (headers cc)).
Proof.
  destruct c; simpl; try done.
  - unfold Header_Values, Header_Set. case_decide as Hk.
    + by rewrite Hk, lookup_insert_eq.
    + by rewrite lookup_insert_ne.
  - unfold Header_Values, Header_Add. case_decide as Hk.
    + by rewrite Hk, lookup_insert_eq.
    + by rewrite lookup_insert_ne.
  - unfold Proxy. by destruct (url_Parse proxyUrl).
Qed.

Lemma chain_values `{!Network} key cs cc :
  Header_Values key (headers (chain cs cc))
  = values_after key cs (Header_Values key (headers cc)).
Proof.
  induction cs as [|c cs IH] using rev_ind; [done|].
  rewrite chain_snoc, call_values, IH.
  unfold values_after. by rewrite foldl_snoc.
Qed.

(** X1: the request that is assembled does not depend on the order in
    which the loop over the header map visits its entries: on a builder
    with well-formed headers every order of the entries gives the
    request that [makeRequest] gives, or the same error. *)
Theorem assembly_ignores_map_order cc entries :
  header_wf (headers cc) →
  entries ≡ₚ map_to_list (headers cc) →
  makeRequest_in entries cc = makeRequest cc ∧
  makeRequest_in (reverse entries) cc = makeRequest cc.
Proof.
  intros Hwf Hperm. split; apply makeRequest_order; try done.
  by rewrite reverse_Permutation.
Qed.

(** X2: an assembled request carries the method and the body of the
    builder, and its url is the builder's url as parsed, with an empty
    port stripped from the host; when no credentials are stored and no
    cookie is pending, its header is the accumulated header, entry for
    entry. *)
Theorem assembled_request_is_configuration cc req :
  header_wf (headers cc) →
  makeRequest cc = inl req →
  req_Method req = method cc ∧
  (∃ parsed, url_Parse (url cc) = inl parsed ∧
             req_URL req = url_removeEmptyPort parsed) ∧
  req_Body req = rawBody cc ∧
  (basicAuth cc = emptyAuth → cookies cc = [] → req_Header req = headers cc).
Proof.
  intros Hwf (req0 & Hm & _ & Hnew & ->)%makeRequest_inl.
  destruct (add_cookies_frame (cookies cc)
              (let r := set_req_Header
                          (copy_headers (map_to_list (headers cc)) ∅) req0 in
               if decide (basicAuth cc = emptyAuth) then r
               else req_SetBasicAuth (Username (basicAuth cc))
                                     (Password (basicAuth cc)) r))
    as (-> & -> & ->).
  pose proof (http_NewRequest_url _ _ _ _ Hnew) as (parsed & Hparse & Hurl).
  apply http_NewRequest_inl in Hnew as (Hmeth & _ & Hbody).
  rewrite (proj2 (String.eqb_neq _ _) Hm) in Hmeth.
  split_and!.
  - by case_decide.
  - exists parsed. split; [done|]. by case_decide.
  - by case_decide.
  - intros Hauth ->. simpl. rewrite decide_True by done. simpl.
    by apply copy_headers_wf.
Qed.

(** X3: the pending cookies reach the request as one Cookie value: the
    first Cookie value set through the header calls, if there is one
    and it is not empty, followed by the name=value pairs of the cookies
    in the order they were added, joined by semicolons.  Further Cookie
    values set through the header calls are dropped. *)
Theorem cookies_on_request cc req :
  header_wf (headers cc) →
  makeRequest cc = inl req →
  cookies cc ≠ [] →
  Header_Values "Cookie" (req_Header req)
  = [String.concat "; "
       ((if String.eqb (Header_Get "Cookie" (headers cc)) "" then []
         else [Header_Get "Cookie" (headers cc)])
        ++ map cookie_pair (cookies cc))].
Proof.
  intros Hwf (req0 & _ & _ & _ & ->)%makeRequest_inl Hcs.
  rewrite add_cookies_header by done.
  rewrite copy_headers_wf by done.
  unfold Header_Values at 1. rewrite lookup_insert_eq. simpl.
  case_decide; simpl; [done|].
  unfold Header_Get, Header_Set. by rewrite lookup_insert_ne.
Qed.

(** X4: across any chain of configuration calls the header behaves as
    one list of values per header: the values a key has on the assembled
    request are the ones [values_after] computes from the chain, unless
    basic auth or the cookies claim the key.  A call counts for the key
    when its key has the same canonical form, which is the case exactly
    when the two keys name the same header: keys made of token
    characters when they are the same up to case, any other two keys
    only when they are the same string. *)
Theorem header_chain_on_request `{!Network} cc cs key req :
  header_wf (headers cc) →
  makeRequest (chain cs cc) = inl req →
  basicAuth (chain cs cc) = emptyAuth ∨ canon key ≠ "Authorization" →
  cookies (chain cs cc) = [] ∨ canon key ≠ "Cookie" →
  Header_Values key (req_Header req)
  = values_after key cs (Header_Values key (headers cc)) ∧
  (∀ k, canon k = canon key ↔ same_header k key).
Proof.
  intros Hwf Hreq Hauth Hck. split; [|intros k; apply canon_eq_iff].
  rewrite (makeRequest_values (chain cs cc) req key); try done.
  - apply chain_values.
  - by apply chain_header_wf.
Qed.

(** X5: [Payload] never makes an assembly fail and changes nothing of
    the request but its body, which is the payload as given; no header
    is added or changed for it. *)
Theorem Payload_is_verbatim cc data req0 :
  makeRequest cc = inl req0 →
  ∃ req,
    makeRequest (Payload data cc) = inl req ∧
    req_Body req = data ∧
    req_Header req = req_Header req0 ∧
    req_Method req = req_Method req0 ∧
    req_URL req = req_URL req0.
Proof.
  unfold makeRequest, makeRequest_in, http_NewRequest. simpl.
  destruct (String.eqb (method cc) ""); [done|].
  destruct (String.eqb (url cc) ""); [done|].
  destruct (validMethod _); [|done].
  destruct (url_Parse (url cc)) as [u|]; [|done].
  intros [= <-]. eexists. split; [reflexivity|].
  match goal with
  | |- context [foldl _ ?r (cookies cc)] =>
      destruct (add_cookies_frame (cookies cc) r) as (-> & -> & ->)
  end.
  match goal with
  | |- context [req_Header (foldl _ ?r (cookies cc)) = req_Header (foldl _ ?r' _)] =>
      destruct (add_cookies_frame (cookies cc) r') as (-> & -> & _)
  end.
  split_and!; try by case_decide.
  destruct (cookies cc) as [|c cs] eqn:Hcs.
  - simpl. by case_decide.
  - rewrite !add_cookies_header by done. by case_decide.
Qed.
End assembly_facts.

(** ** Executing *)

Section executor_facts.
Context `{!GoLib, !Network}.
Implicit Types (cc : CrocClient) (w : World) (req : http_Request).
Implicit Types (e : error) (resp : http_Response).

Local Ltac each_method H :=
  unfold method_selection in H;
  repeat (apply elem_of_cons in H as [[= -> ->]|H]);
  [.. | by apply elem_of_nil in H].

Lemma makeRequest_ext cc cc' entries :
  method cc' = method cc → url cc' = url cc → rawBody cc' = rawBody cc →
  basicAuth cc' = basicAuth cc → cookies cc' = cookies cc →
  makeRequest_in entries cc' = makeRequest_in entries cc.
Proof. unfold makeRequest_in. by intros -> -> -> -> ->. Qed.

Lemma End_frame cc w :
  url (after_End cc w) = url cc ∧ method (after_End cc w) = method cc ∧
  headers (after_End cc w) = headers cc ∧ cookies (after_End cc w) = cookies cc ∧
  basicAuth (after_End cc w) = basicAuth cc ∧
  rawBody (after_End cc w) = rawBody cc ∧ proxy (after_End cc w) = proxy cc.
Proof.
  unfold after_End, End.
  destruct (err cc); [done|].
  destruct (makeRequest cc) as [req|]; [|done].
  destruct (client_Do _ _ _) as [[resp|] w1]; [|done].
  unfold io_ReadAll. by destruct (stream_err (resp_Body resp)).
Qed.

Lemma End_error_stored cc w :
  err cc = None → err (after_End cc w) = End_error cc w.
Proof.
  intros He. unfold after_End, End_error, End. rewrite He.
  destruct (makeRequest cc) as [req|]; [|done].
  destruct (client_Do _ _ _) as [[resp|] w1]; [|done].
  unfold io_ReadAll. by destruct (stream_err (resp_Body resp)).
Qed.

Lemma End_error_sticks cc w e :
  End_error cc w = Some e → err (after_End cc w) = Some e.
Proof.
  destruct (err cc) as [e'|] eqn:He.
  - unfold End_error, after_End. rewrite (End_pending _ _ _ He). simpl.
    by intros [= <-].
  - intros <-. by apply End_error_stored.
Qed.

(** X6: a method-selection call accepts any url and reports no error;
    a url that does not parse is found out by [End], which returns the
    parse error, stores it as the sticky error and sends nothing. *)
Theorem bad_url_fails_at_End m sel targetUrl cc w e :
  (m, sel) ∈ method_selection →
  targetUrl ≠ "" →
  url_Parse targetUrl = inr e →
  Error (sel targetUrl cc) = None ∧
  End (sel targetUrl cc) w = (Some e, set_err (Some e) (sel targetUrl cc), w).
Proof.
  intros Hsel Hu Hparse.
  assert (Error (sel targetUrl cc) = None ∧
          makeRequest (sel targetUrl cc) = inr e) as [Herr Hreq].
  { each_method Hsel;
      (split; [done|]; unfold makeRequest, makeRequest_in, http_NewRequest;
       simpl; rewrite (proj2 (String.eqb_neq _ _) Hu), Hparse; done). }
  split; [done|]. by apply End_assembly_error.
Qed.

(** X7: an error returned by [End] sticks: after any further chain of
    configuration calls in which no [Proxy] call fails, the next [End]
    returns the same error again, leaves the builder as it finds it and
    sends nothing. *)
Theorem End_error_blocks_next_End cc w e cs w' :
  End_error cc w = Some e →
  Forall (λ c, failing_Proxy c = false) cs →
  End (chain cs (after_End cc w)) w' = (Some e, chain cs (after_End cc w), w').
Proof.
  intros HEnd Hcs. apply End_pending.
  rewrite chain_keeps_err by done. by apply End_error_sticks.
Qed.

(** X8: [End] never touches the configuration of the request: url,
    method, headers, cookies, credentials, body and proxy are after it
    what they were before, whatever the outcome, so the same request is
    assembled again; and an [End] that returns no error leaves no error
    behind, so it can be repeated as it is. *)
Theorem End_keeps_configuration cc w :
  (url (after_End cc w) = url cc ∧ method (after_End cc w) = method cc ∧
   headers (after_End cc w) = headers cc ∧ cookies (after_End cc w) = cookies cc ∧
   basicAuth (after_End cc w) = basicAuth cc ∧
   rawBody (after_End cc w) = rawBody cc ∧ proxy (after_End cc w) = proxy cc) ∧
  makeRequest (after_End cc w) = makeRequest cc ∧
  (End_error cc w = None → Error (after_End cc w) = None).
Proof.
  pose proof (End_frame cc w) as Hframe. split; [done|].
  destruct Hframe as (Hu & Hm & Hh & Hc & Hb & Hr & _). split.
  - unfold makeRequest. rewrite Hh. by apply makeRequest_ext.
  - intros HEnd. unfold Error.
    destruct (err cc) as [e|] eqn:He.
    + unfold End_error in HEnd. by rewrite (End_pending _ _ _ He) in HEnd.
    + by rewrite End_error_stored.
Qed.

(** X9: [End] hands the client at most one request: exactly the
    assembled one, through the client with the transport installed, when
    no error is pending and the assembly succeeds, and none at all
    otherwise. *)
Theorem End_sends_at_most_once cc w :
  sent (world_after_End cc w) =
    match err cc, makeRequest cc with
    | None, inl req => (sent w ++ [(client (install_transport cc), req)])%list
    | _, _ => sent w
    end.
Proof.
  destruct (err cc) as [e|] eqn:He.
  - unfold world_after_End. by rewrite (End_pending _ _ _ He).
  - destruct (makeRequest cc) as [req|e] eqn:Hreq.
    + by apply End_sent_log.
    + unfold world_after_End. by rewrite (End_assembly_error _ _ _ He Hreq).
Qed.

(** X10: [ClearRequestData] keeps the sticky error, the cookies and
    the proxy.  The [End] that follows it always fails without sending:
    with the pending error if there is one, and with "no method
    specified" otherwise. *)
Theorem End_after_ClearRequestData cc w :
  Error (ClearRequestData cc) = Error cc ∧
  cookies (ClearRequestData cc) = cookies cc ∧
  proxy (ClearRequestData cc) = proxy cc ∧
  End_error (ClearRequestData cc) w = Some (default no_method (err cc)) ∧
  world_after_End (ClearRequestData cc) w = w.
Proof.
  split_and!; try done.
  - unfold End_error, End. simpl. by destruct (err cc).
  - unfold world_after_End, End. simpl. by destruct (err cc).
Qed.

(** X11: [End] is [Do] on the assembled request plus bookkeeping: when
    no error is pending and the assembly succeeds, [End] returns the
    error [Do] returns for the assembled request and leaves the world as
    [Do] leaves it; when that error is absent, [Response] and
    [RawRespBody] answer the response and the body [Do] returns. *)
Theorem End_is_Do_on_assembled cc w req :
  err cc = None →
  makeRequest cc = inl req →
  End_error cc w = (Do req cc w).1.1.2 ∧
  world_after_End cc w = (Do req cc w).2 ∧
  (End_error cc w = None →
     Response (after_End cc w) = (Do req cc w).1.1.1.1 ∧
     Some (RawRespBody (after_End cc w)) = (Do req cc w).1.1.1.2).
Proof.
  intros He Hreq.
  destruct (client_Do (client (install_transport cc)) req w) as [res w1] eqn:Hdo.
  unfold End_error, world_after_End, after_End.
  rewrite (End_sent _ _ _ _ _ He Hreq Hdo).
  unfold Do. rewrite Hdo.
  destruct res as [resp|e]; [|done].
  unfold io_ReadAll. by destruct (stream_err (resp_Body resp)).
Qed.

(** X12: a [Proxy] call whose URL parses leaves the sticky error as it
    is and stores a resolver that answers the parsed URL for every
    request; the client that [Do] then hands a request to has that
    resolver on its transport. *)
Theorem Proxy_installs_resolver proxyUrl p cc :
  url_Parse proxyUrl = inl p →
  Error (Proxy proxyUrl cc) = Error cc ∧
  ∃ f, proxy (Proxy proxyUrl cc) = Some f ∧
       (∀ r, f r = (Some p, None)) ∧
       ∀ req w, ∃ c t,
         last (sent (Do req (Proxy proxyUrl cc) w).2) = Some (c, req) ∧
         client_Transport c = Some t ∧ transport_Proxy t = Some f.
Proof.
  intros Hparse. unfold Proxy. rewrite Hparse. split; [done|].
  eexists. split; [reflexivity|]. split; [done|].
  intros req w. unfold Do.
  destruct (client_Do _ _ _) as [res w1] eqn:Hdo.
  unfold client_Do in Hdo. destruct (roundTrip _ _ _) as [res' n].
  injection Hdo as -> <-.
  do 2 eexists. split.
  - destruct res as [resp|]; [|simpl; by rewrite last_snoc].
    unfold io_ReadAll.
    destruct (stream_err (resp_Body resp)); simpl; by rewrite last_snoc.
  - split; reflexivity.
Qed.

(** X13: after [ClearCookies], [AddCookies] and a method-selection
    call, the header of the assembled request is the Cookie header
    alone, holding the pairs of just the cookies added since the clear,
    in order. *)
Theorem cookies_since_clear m sel targetUrl cks cc req :
  (m, sel) ∈ method_selection →
  cks ≠ [] →
  makeRequest (sel targetUrl (AddCookies cks (ClearCookies cc))) = inl req →
  req_Header req = {["Cookie" := [String.concat "; " (map cookie_pair cks)]]}.
Proof.
  intros Hsel Hcks Hreq.
  apply makeRequest_inl in Hreq as (req0 & _ & _ & _ & ->).
  assert (headers (sel targetUrl (AddCookies cks (ClearCookies cc))) = ∅ ∧
          basicAuth (sel targetUrl (AddCookies cks (ClearCookies cc))) = emptyAuth ∧
          cookies (sel targetUrl (AddCookies cks (ClearCookies cc))) = cks)
    as (-> & -> & ->) by (each_method Hsel; done).
  rewrite add_cookies_header by done.
  rewrite map_to_list_empty, decide_True by done. simpl.
  by rewrite insert_empty.
Qed.
End executor_facts.

(** ** Sessions *)

Section session_facts.
Context `{!GoLib, !Network}.
Implicit Types (cc : CrocClient) (w : World) (s : CrocClient * World).
Implicit Types (a : ApiCall) (calls : list ApiCall).

Lemma session_snoc n calls a :
  session n (calls ++ [a]) = api a (session n calls).
Proof. unfold session. by rewrite foldl_snoc. Qed.

Lemma install_transport_as_built cc :
  DisableKeepAlives (transport cc) = true →
  Jar (client cc) = Some emptyCookieJar →
  client_as_built (client (install_transport cc)).
Proof. intros Hk Hj. split; [done|]. by eexists. Qed.

Lemma api_keeps_as_built a s : as_built s → as_built (api a s).
Proof.
  destruct s as [cc w]. intros (Hwf & Hk & Hj & Ht & Hlog).
  destruct a as [c| | | | | | | | |req]; simpl;
    try (split_and!; try done; apply header_wf_empty).
  - split; [by apply call_header_wf|].
    destruct c; simpl; try done.
    unfold Proxy. by destruct (url_Parse proxyUrl).
  - unfold as_built, after_End, world_after_End, End. simpl.
    destruct (err cc); [done|].
    destruct (makeRequest cc) as [req|]; [|done].
    unfold client_Do. destruct (roundTrip _ _ _) as [res n].
    assert (Forall (λ cr, client_as_built cr.1)
              (sent w ++ [(client (install_transport cc), req)])) as Hlog'.
    { apply Forall_app. split; [done|].
      apply Forall_singleton. by apply install_transport_as_built. }
    destruct res as [resp|]; [|simpl; split_and!; by auto].
    unfold io_ReadAll. destruct (stream_err (resp_Body resp));
      simpl; split_and!; by auto.
  - unfold as_built, Do. simpl.
    unfold client_Do. destruct (roundTrip _ _ _) as [res n].
    assert (Forall (λ cr, client_as_built cr.1)
              (sent w ++ [(client (install_transport cc), req)])) as Hlog'.
    { apply Forall_app. split; [done|].
      apply Forall_singleton. by apply install_transport_as_built. }
    destruct res as [resp|]; [|simpl; split_and!; by auto].
    unfold io_ReadAll. destruct (stream_err (resp_Body resp));
      simpl; split_and!; by auto.
Qed.

Lemma api_log_length a s :
  (length (sent (api a s).2)
   ≤ length (sent s.2) + (if sends a then 1 else 0))%nat.
Proof.
  destruct s as [cc w].
  destruct a as [c| | | | | | | | |req]; simpl; try lia.
  - unfold world_after_End, End.
    destruct (err cc); [simpl; lia|].
    destruct (makeRequest cc) as [req|]; [|simpl; lia].
    unfold client_Do. destruct (roundTrip _ _ _) as [res n].
    destruct res as [resp|]; [|simpl; rewrite length_app; simpl; lia].
    unfold io_ReadAll. destruct (stream_err (resp_Body resp));
      simpl; rewrite length_app; simpl; lia.
  - unfold Do, client_Do. destruct (roundTrip _ _ _) as [res n].
    destruct res as [resp|]; [|simpl; rewrite length_app; simpl; lia].
    unfold io_ReadAll. destruct (stream_err (resp_Body resp));
      simpl; rewrite length_app; simpl; lia.
Qed.

Lemma api_keeps_results_in_step a s :
  results_in_step s.1 → results_in_step (api a s).1.
Proof.
  destruct s as [cc w]. intros [Hreq Hresp].
  destruct a as [c| | | | | | | | |req]; simpl; try done.
  - destruct c; simpl; try done.
    unfold Proxy. by destruct (url_Parse proxyUrl).
  - unfold results_in_step, after_End, End. simpl in *.
    destruct (err cc); [done|].
    destruct (makeRequest cc) as [req|]; [|done].
    destruct (client_Do _ _ _) as [[resp|] w1]; [|done].
    unfold io_ReadAll. by destruct (stream_err (resp_Body resp)).
  - unfold results_in_step, Do. simpl in *.
    destruct (client_Do _ _ _) as [[resp|] w1]; [|done].
    unfold io_ReadAll. by destruct (stream_err (resp_Body resp)).
Qed.

(** X14: in every session (a builder made by [New], then any calls of
    the package in any order) the headers stay well-formed, keep-alives
    stay disabled on the transport, the client keeps the jar made by
    [New], and every request that was sent went through a client with
    that jar and with a transport on which keep-alives are disabled;
    and no more requests are sent than there are [End] and [Do] calls. *)
Theorem session_as_built n calls :
  as_built (session n calls) ∧
  (length (sent (session n calls).2) ≤ length (filter sends calls))%nat.
Proof.
  induction calls as [|a calls [IH1 IH2]] using rev_ind.
  - split; [|done].
    split_and!; [apply header_wf_empty | done | done | by left | by apply Forall_nil].
  - rewrite session_snoc. split; [by apply api_keeps_as_built|].
    pose proof (api_log_length a (session n calls)) as Hlen.
    rewrite filter_app, length_app.
    rewrite filter_cons, filter_nil.
    destruct (sends a); simpl in *; lia.
Qed.

(** X15: in every session the stored results come in steps: [Response]
    answers a response only once [Request] answers a request, and the
    response snapshot is the initial one (status 0, no headers, no
    body, length 0) until [Response] answers a response. *)
Theorem session_results_in_step n calls :
  (Request (session n calls).1 = None → Response (session n calls).1 = None) ∧
  (Response (session n calls).1 = None →
     RespStatus (session n calls).1 = 0%Z ∧
     RespHeaders (session n calls).1 = ∅ ∧
     RawRespBody (session n calls).1 = [] ∧
     RespLength (session n calls).1 = 0%Z).
Proof.
  assert (results_in_step (session n calls).1) as [Hreq Hresp].
  { induction calls as [|a calls IH] using rev_ind; [done|].
    rewrite session_snoc. by apply api_keeps_results_in_step. }
  split; [done|]. intros Hnone.
  specialize (Hresp Hnone). unfold snapshot in Hresp. simpl in Hresp.
  unfold RespStatus, RespHeaders, RawRespBody, RespLength.
  by injection Hresp as -> -> -> ->.
Qed.
End session_facts.

(** ** The initial values *)

Section initial_facts.
Context `{!GoLib, !Network}.
Implicit Types (cc : CrocClient) (w : World) (s : CrocClient * World).
Implicit Types (a : ApiCall) (calls : list ApiCall).

Lemma session_flagged_snoc n calls a :
  session_flagged n (calls ++ [a])
  = (api a (session_flagged n calls).1,
     (session_flagged n calls).2 || succeeds a (session_flagged n calls).1).
Proof. unfold session_flagged. by rewrite foldl_snoc. Qed.

Lemma session_flagged_session n calls :
  (session_flagged n calls).1 = session n calls.
Proof.
  induction calls as [|a calls IH] using rev_ind; [done|].
  by rewrite session_flagged_snoc, session_snoc, <-IH.
Qed.

(** A call that is not a succeeding execution keeps the snapshot. *)
Lemma api_keeps_snapshot a s :
  succeeds a s = false → snapshot (api a s).1 = snapshot s.1.
Proof.
  destruct s as [cc w].
  destruct a as [c| | | | | | | | |req]; simpl; try done.
  - intros _. destruct c; simpl; try done.
    unfold Proxy. by destruct (url_Parse proxyUrl).
  - destruct (End_error cc w) as [e|] eqn:HEnd; [|done].
    intros _. by apply (End_failure_snapshot cc w e).
  - intros _. unfold Do.
    destruct (client_Do _ _ _) as [[resp|] w1]; [|done].
    unfold io_ReadAll. by destruct (stream_err (resp_Body resp)).
Qed.

(** Only [End] stores a request or a response. *)
Lemma api_keeps_last a s :
  is_End a = false →
  lastRequest (api a s).1 = lastRequest s.1 ∧
  lastResponse (api a s).1 = lastResponse s.1.
Proof.
  destruct s as [cc w].
  destruct a as [c| | | | | | | | |req]; simpl; try done.
  - intros _. destruct c; simpl; try done.
    unfold Proxy. by destruct (url_Parse proxyUrl).
  - intros _. unfold Do.
    destruct (client_Do _ _ _) as [[resp|] w1]; [|done].
    unfold io_ReadAll. by destruct (stream_err (resp_Body resp)).
Qed.

Lemma api_keeps_no_error a s :
  may_store_error a = false → err s.1 = None → err (api a s).1 = None.
Proof.
  destruct s as [cc w].
  destruct a as [c| | | | | | | | |req]; simpl; try done.
  - intros Hc Herr. destruct c; simpl; try done.
    unfold Proxy. simpl in Hc. by destruct (url_Parse proxyUrl).
  - intros _ Herr. unfold Do.
    destruct (client_Do _ _ _) as [[resp|] w1]; [|done].
    unfold io_ReadAll. by destruct (stream_err (resp_Body resp)).
Qed.

(** C10, as amended: a freshly constructed builder has no error, no
    last request and no last response, an empty header map, an empty
    cookie list, no proxy resolver, and a response snapshot of status
    code 0, empty response headers, empty body and content length 0
    (not -1).  In every session the snapshot accessors return exactly
    these values as long as no execution has succeeded; [Request] and
    [Response] return nothing as long as [End] has not been called; and
    [Error] returns nothing as long as neither [End] nor a [Proxy] whose
    URL does not parse has been called. *)
Theorem initial_values_until_success :
  (Error New = None ∧ Request New = None ∧ Response New = None ∧
   headers New = ∅ ∧ cookies New = [] ∧ proxy New = None ∧
   RespStatus New = 0%Z ∧ RespHeaders New = ∅ ∧ RawRespBody New = [] ∧
   RespLength New = 0%Z ∧ RespLength New ≠ (-1)%Z) ∧
  (∀ n calls,
     succeeded n calls = false →
     RespStatus (session n calls).1 = 0%Z ∧
     RespHeaders (session n calls).1 = ∅ ∧
     RawRespBody (session n calls).1 = [] ∧
     RespLength (session n calls).1 = 0%Z) ∧
  (∀ n calls,
     Forall (λ a, is_End a = false) calls →
     Request (session n calls).1 = None ∧
     Response (session n calls).1 = None) ∧
  (∀ n calls,
     Forall (λ a, may_store_error a = false) calls →
     Error (session n calls).1 = None).
Proof.
  split_and!; try done.
  - intros n calls Hno.
    assert (snapshot (session n calls).1 = snapshot New) as Hsnap.
    { revert Hno. unfold succeeded. rewrite <-session_flagged_session.
      induction calls as [|a calls IH] using rev_ind; [done|].
      rewrite session_flagged_snoc. simpl.
      intros [Hprev Ha]%orb_false_elim.
      rewrite <-(IH Hprev). by apply api_keeps_snapshot. }
    unfold snapshot in Hsnap. simpl in Hsnap.
    unfold RespStatus, RespHeaders, RawRespBody, RespLength.
    by injection Hsnap as -> -> -> ->.
  - intros n calls Hcalls. unfold Request, Response.
    induction calls as [|a calls IH] using rev_ind; [done|].
    apply Forall_app in Hcalls as [Hcalls Ha%Forall_inv].
    rewrite session_snoc.
    destruct (api_keeps_last a (session n calls) Ha) as [-> ->].
    by apply IH.
  - intros n calls Hcalls. unfold Error.
    induction calls as [|a calls IH] using rev_ind; [done|].
    apply Forall_app in Hcalls as [Hcalls Ha%Forall_inv].
    rewrite session_snoc. apply api_keeps_no_error; [done|]. by apply IH.
Qed.
End initial_facts.

(** * The claims on concrete runs *)

Section runs.
Local Existing Instances stubLib stubNet.

(** [Proxy] with a URL that does not parse, then [End]: the parse
    error comes back, the builder is untouched and nothing is sent. *)
Lemma End_pending_error_run :
  End (Proxy bad_url_1 fetching) (world [inl ok_response])
  = (Some (parse_error bad_url_1), Proxy bad_url_1 fetching,
     world [inl ok_response]).
Proof.
  refine (proj2 (proj2 (proj2 (proj2 (End_pending_error fetching _)
                                   bad_url_1 _ _)))).
  reflexivity.
Defined.

(** [End] on a fresh builder fails with "no method specified". *)
Lemma End_assembly_failure_run :
  End New (world [])
  = (Some no_method, set_err (Some no_method) New, world []).
Proof.
  refine (proj1 (End_assembly_failure New (world []) _ _)).
  - reflexivity.
  - left. reflexivity.
Defined.

(** After a served request, [ClearRequestData] and a second [End]: the
    assembly fails, and [Request] does not answer nothing: it still
    answers the request of the first execution. *)
Lemma End_assembly_failure_keeps_lastRequest :
  err (ClearRequestData served) = None ∧
  method (ClearRequestData served) = "" ∧
  End_error (ClearRequestData served) (world []) = Some no_method ∧
  Request (after_End (ClearRequestData served) (world [])) ≠ None ∧
  req_URL <$> Request (after_End (ClearRequestData served) (world []))
  = Some "http://example/x".
Proof. split_and!; [reflexivity.. | discriminate | reflexivity]. Qed.

(** A response whose body breaks off: the error is returned, the
    snapshot stays empty and [Response] is the new response. *)
Lemma End_snapshot_run :
  Response (after_End fetching (world [inl cut_response])) = Some cut_response ∧
  End_error fetching (world [inl cut_response]) = Some unexpected_EOF ∧
  snapshot (after_End fetching (world [inl cut_response])) = snapshot fetching.
Proof.
  refine (proj2 (End_snapshot fetching (world [inl cut_response]))
            _ (inl cut_response) _ _ _ _); reflexivity.
Defined.

Lemma method_selection_resets_run :
  url (Post "http://example/y" (AddCookies [session_cookie] served))
  = "http://example/y" ∧
  cookies (Post "http://example/y" (AddCookies [session_cookie] served))
  = [session_cookie].
Proof.
  pose proof (method_selection_resets POST Post "http://example/y"
                (AddCookies [session_cookie] served)) as Hsel.
  destruct Hsel as ((_ & Hurl & _) & (Hcookies & _) & _).
  - unfold method_selection. apply elem_of_cons. right.
    apply elem_of_cons. left. reflexivity.
  - split; [exact Hurl | exact Hcookies].
Defined.

Lemma header_calls_on_request_run :
  ∃ req,
    makeRequest (set_then_append "x-token" "1" ["2"; "3"] fetching) = inl req ∧
    Header_Values "x-token" (req_Header req) = ["1"; "2"; "3"].
Proof.
  eexists. split; [reflexivity|].
  refine (proj1 (header_calls_on_request fetching "x-token" "0" "1" ["2"; "3"]
                   _ _ _ _ _ _ _)).
  - apply header_wf_empty.
  - left. reflexivity.
  - left. reflexivity.
  - reflexivity.
  - reflexivity.
Defined.

(** With credentials stored, header calls on Authorization do not reach
    the assembled request, which carries the basic-auth value alone;
    with a cookie pending, the Cookie header of the assembled request
    is its first value joined with the cookie, and the appended value
    is gone. *)
Lemma header_calls_overridden :
  (∃ req,
     makeRequest (set_then_append "Authorization" "token-1" ["token-2"]
                    (SetBasicAuth "user" "pass" fetching)) = inl req ∧
     Header_Values "Authorization" (req_Header req) = ["Basic dXNlcjpwYXNz"] ∧
     Header_Values "Authorization" (req_Header req) ≠ ["token-1"; "token-2"]) ∧
  (∃ req,
     makeRequest (set_then_append "Cookie" "a=1" ["b=2"]
                    (AddCookies [session_cookie] fetching)) = inl req ∧
     Header_Values "Cookie" (req_Header req) = ["a=1; sid=42"] ∧
     Header_Values "Cookie" (req_Header req) ≠ ["a=1"; "b=2"]).
Proof.
  split; (eexists; split; [reflexivity|]);
    split; vm_compute; (reflexivity || discriminate).
Qed.

Lemma config_calls_keep_error_run :
  Error (chain [CallSetHeader "X-A" "1"; CallProxy "http://proxy:8080";
                CallPayload [Byte.x7b; Byte.x7d]]
           (Proxy bad_url_1 fetching))
  = Some (parse_error bad_url_1).
Proof.
  refine (proj1 (config_calls_keep_error _ (Proxy bad_url_1 fetching) _)).
  repeat constructor.
Defined.

(** With an error pending, [SetHeader] still stores its header, and a
    second [Proxy] call that fails replaces the pending error by its
    own. *)
Lemma config_calls_not_guarded :
  Error (Proxy bad_url_1 fetching) = Some (parse_error bad_url_1) ∧
  Header_Values "X-A" (headers (Proxy bad_url_1 fetching)) = [] ∧
  Header_Values "X-A" (headers (SetHeader "X-A" "1" (Proxy bad_url_1 fetching)))
  = ["1"] ∧
  SetHeader "X-A" "1" (Proxy bad_url_1 fetching) ≠ Proxy bad_url_1 fetching ∧
  Error (Proxy bad_url_2 (Proxy bad_url_1 fetching))
  = Some (parse_error bad_url_2) ∧
  parse_error bad_url_2 ≠ parse_error bad_url_1.
Proof.
  repeat split; try reflexivity.
  - intros Heq.
    apply (f_equal (λ cc, Header_Values "X-A" (headers cc))) in Heq.
    vm_compute in Heq. discriminate.
  - vm_compute. discriminate.
Qed.

Lemma basic_auth_on_request_run :
  ∃ req,
    makeRequest (SetBasicAuth "user" "pass" fetching) = inl req ∧
    Header_Values "Authorization" (req_Header req) = ["Basic dXNlcjpwYXNz"].
Proof.
  eexists. split; [reflexivity|].
  refine (proj1 (basic_auth_on_request (SetBasicAuth "user" "pass" fetching)
                   _ _ _) _).
  - apply header_wf_empty.
  - reflexivity.
  - done.
Defined.

(** [Do] on a builder that has served a request, against a response
    whose body breaks off. *)
Lemma Do_frame_run :
  (Do premade served (world [inl cut_response])).1.1
  = (Some cut_response, None, Some unexpected_EOF) ∧
  Request (Do premade served (world [inl cut_response])).1.2 = Request served ∧
  Response (Do premade served (world [inl cut_response])).1.2 = Some ok_response ∧
  snapshot (Do premade served (world [inl cut_response])).1.2 = snapshot served.
Proof.
  pose proof (Do_frame premade served (world [inl cut_response])
                (inl cut_response) _ eq_refl) as Hdo.
  destruct Hdo as (Hout & (Hreq & Hresp & _ & Hsnap) & _).
  split; [exact Hout|]. split; [exact Hreq|]. split; [exact Hresp|exact Hsnap].
Defined.

(** After a request to /x has been served, [Get] for /y: [Request]
    and [Response] still answer the request to /x and its response.
    The same holds for an [End] that finds an error pending, and an
    [End] whose request gets no response stores the request to /y while
    [Response] still answers the response of the execution before. *)
Lemma last_instances_kept :
  req_URL <$> Request served = Some "http://example/x" ∧
  Response served = Some ok_response ∧
  req_URL <$> Request (Get "http://example/y" served)
  = Some "http://example/x" ∧
  Response (Get "http://example/y" served) = Some ok_response ∧
  req_URL <$> Request (after_End (Proxy bad_url_1 (Get "http://example/y" served))
                         (world [inl cut_response]))
  = Some "http://example/x" ∧
  Response (after_End (Proxy bad_url_1 (Get "http://example/y" served))
              (world [inl cut_response])) = Some ok_response ∧
  req_URL <$> Request (after_End (Get "http://example/y" served) (world []))
  = Some "http://example/y" ∧
  Response (after_End (Get "http://example/y" served) (world []))
  = Some ok_response.
Proof. split_and!; reflexivity. Qed.

(** The round trip of the specification: a POST with a header and a
    payload reaches the network as configured, and the accessors
    answer what the network replied. *)
Example round_trip :
  let cc := Payload [Byte.x7b; Byte.x7d]
              (SetHeader "Content-Type" "application/json"
                 (Post "http://example/x" New)) in
  let w := world [inl ok_response] in
  End_error cc w = None ∧
  (∃ c req, sent (world_after_End cc w) = [(c, req)] ∧
            req_Method req = "POST" ∧ req_URL req = "http://example/x" ∧
            Header_Values "content-type" (req_Header req) = ["application/json"] ∧
            req_Body req = [Byte.x7b; Byte.x7d]) ∧
  RespStatus (after_End cc w) = 200%Z ∧
  RawRespBody (after_End cc w) = [Byte.x6f; Byte.x6b].
Proof.
  intros cc w. split; [done|]. split; [|done].
  do 2 eexists. split; [reflexivity|done].
Qed.
End runs.

(** * Further properties on concrete runs *)

Section more_runs.
Local Existing Instances stubLib stubNet.

Lemma two_headers_wf : header_wf (headers two_headers).
Proof. do 2 apply header_wf_Set. apply header_wf_empty. Qed.

Lemma empty_port_wf : header_wf (headers empty_port).
Proof. apply header_wf_Set. apply header_wf_empty. Qed.

Lemma assembly_ignores_map_order_run :
  makeRequest_in (reverse (map_to_list (headers two_headers))) two_headers
  = makeRequest two_headers.
Proof.
  refine (proj2 (assembly_ignores_map_order two_headers _ _ _)).
  - apply two_headers_wf.
  - reflexivity.
Defined.

Lemma assembled_request_is_configuration_run :
  ∃ req,
    makeRequest empty_port = inl req ∧
    req_Method req = "GET" ∧ req_URL req = "http://example/x" ∧
    Header_Values "x-token" (req_Header req) = ["1"].
Proof.
  eexists. split; [reflexivity|].
  pose proof (assembled_request_is_configuration empty_port _
                empty_port_wf eq_refl) as (Hm & (parsed & Hparse & Hu) & _ & Hh).
  split; [exact Hm|]. split.
  - rewrite Hu. vm_compute in Hparse. injection Hparse as <-. reflexivity.
  - rewrite Hh; reflexivity.
Defined.

Lemma cookies_on_request_run :
  ∃ req,
    makeRequest (AddCookies [session_cookie; lang_cookie] fetching) = inl req ∧
    Header_Values "Cookie" (req_Header req) = ["sid=42; lang=en"].
Proof.
  eexists. split; [reflexivity|].
  refine (cookies_on_request (AddCookies [session_cookie; lang_cookie] fetching)
            _ _ eq_refl _).
  - apply header_wf_empty.
  - discriminate.
Defined.

Lemma header_chain_on_request_run :
  ∃ req,
    makeRequest
      (chain [CallSetHeader "accept" "a"; CallAppendHeader "ACCEPT" "b";
              CallSetHeader "X-Other" "c"; CallAppendHeader "Accept" "d"]
         fetching) = inl req ∧
    Header_Values "Accept" (req_Header req) = ["a"; "b"; "d"].
Proof.
  eexists. split; [reflexivity|].
  refine (proj1 (header_chain_on_request fetching
                   [CallSetHeader "accept" "a"; CallAppendHeader "ACCEPT" "b";
                    CallSetHeader "X-Other" "c"; CallAppendHeader "Accept" "d"]
                   "Accept" _ _ eq_refl _ _)).
  - apply header_wf_empty.
  - left. reflexivity.
  - left. reflexivity.
Defined.

Lemma Payload_is_verbatim_run :
  ∃ req,
    makeRequest (Payload [Byte.x7b; Byte.x7d] two_headers) = inl req ∧
    req_Body req = [Byte.x7b; Byte.x7d].
Proof.
  destruct (Payload_is_verbatim two_headers [Byte.x7b; Byte.x7d] _ eq_refl)
    as (req & Hreq & Hbody & _).
  exists req. split; [exact Hreq | exact Hbody].
Defined.

Lemma bad_url_fails_at_End_run :
  Error (Get bad_url_1 New) = None ∧
  End_error (Get bad_url_1 New) (world [inl ok_response])
  = Some (parse_error bad_url_1).
Proof.
  destruct (bad_url_fails_at_End GET Get bad_url_1 New (world [inl ok_response])
              (parse_error bad_url_1)) as [Herr HEnd].
  - unfold method_selection. apply elem_of_cons. left. reflexivity.
  - discriminate.
  - reflexivity.
  - split; [exact Herr|]. unfold End_error. rewrite HEnd. reflexivity.
Defined.

Lemma End_error_blocks_next_End_run :
  End_error (chain [CallSetHeader "X-A" "1"] (after_End fetching (world [])))
    (world [inl ok_response])
  = Some connection_refused.
Proof.
  unfold End_error.
  rewrite (End_error_blocks_next_End fetching (world []) connection_refused
             [CallSetHeader "X-A" "1"] (world [inl ok_response])).
  - reflexivity.
  - reflexivity.
  - repeat constructor.
Defined.

Lemma End_is_Do_on_assembled_run :
  ∃ req,
    makeRequest fetching = inl req ∧
    End_error fetching (world [inl cut_response])
    = (Do req fetching (world [inl cut_response])).1.1.2.
Proof.
  eexists. split; [reflexivity|].
  refine (proj1 (End_is_Do_on_assembled fetching _ _ eq_refl eq_refl)).
Defined.

Lemma Proxy_installs_resolver_run :
  ∃ f,
    proxy (Proxy "http://proxy:8080" fetching) = Some f ∧
    ∀ r, f r = (Some "http://proxy:8080", None).
Proof.
  destruct (Proxy_installs_resolver "http://proxy:8080"
              ("http://proxy:8080" : @URL stubLib) fetching eq_refl)
    as (_ & f & Hf & Hall & _).
  exists f. split; [exact Hf | exact Hall].
Defined.

Lemma cookies_since_clear_run :
  ∃ req,
    makeRequest (Get "http://example/y"
                   (AddCookies [session_cookie]
                      (ClearCookies (AddCookies [stale_cookie] New)))) = inl req ∧
    Header_Values "Cookie" (req_Header req) = ["sid=42"].
Proof.
  eexists. split; [reflexivity|].
  rewrite (cookies_since_clear GET Get "http://example/y" [session_cookie]
             (AddCookies [stale_cookie] New) _).
  - reflexivity.
  - unfold method_selection. apply elem_of_cons. left. reflexivity.
  - discriminate.
  - reflexivity.
Defined.
End more_runs.

(** Keys that differ in case only name one header when they are made of
    token characters, and two headers when they hold another byte. *)
Example same_header_by_case :
  canon "content-type" = canon "Content-TYPE" ∧
  canon "not a key" ≠ canon "NOT A KEY".
Proof. split; [reflexivity | discriminate]. Qed.

Section initial_runs.
Local Existing Instances stubLib stubNet.

(** One [Get] and one [End] that fails: no execution has succeeded, yet
    [Request] answers the request and [Error] the error when the
    connection is refused, and [Response] answers the response when its
    body breaks off. *)
Lemma initial_values_lost_on_failure :
  succeeded [] one_failing_End = false ∧
  req_URL <$> Request (session [] one_failing_End).1 = Some "http://example/x" ∧
  Error (session [] one_failing_End).1 = Some connection_refused ∧
  succeeded [inl cut_response] one_failing_End = false ∧
  Response (session [inl cut_response] one_failing_End).1 = Some cut_response ∧
  Error (session [inl cut_response] one_failing_End).1 = Some unexpected_EOF.
Proof. split_and!; reflexivity. Qed.

Lemma initial_values_until_success_run :
  RespStatus (session [inl cut_response] one_failing_End).1 = 0%Z ∧
  RespHeaders (session [inl cut_response] one_failing_End).1 = ∅ ∧
  RawRespBody (session [inl cut_response] one_failing_End).1 = [] ∧
  RespLength (session [inl cut_response] one_failing_End).1 = 0%Z.
Proof.
  refine (proj1 (proj2 initial_values_until_success)
            [inl cut_response] one_failing_End _).
  reflexivity.
Defined.
End initial_runs.
